(** * A skip list (stl::skip_list) and its specification

    Shallow embedding of [include/skip_list.hpp].

    - Nodes live in a per-container store (a list addressed by index); a
      [std::shared_ptr<Node>] is an [option nat] ([None] is the null pointer).
      Nodes are never freed in the model: an unreferenced node is simply
      unreachable.
    - [std::mt19937] with [uniform_real_distribution<double>(0,1)] is an
      explicit stream of draws [nat -> Q], consumed from the front.
    - Every operation returns an [outcome]: a value, the iterator's
      [std::runtime_error], undefined behaviour (null dereference or a vector
      index out of range), or exhaustion of the model's loop fuel.
    - [size_t] counters are [nat]: [size_] counts nodes that all sit in
      memory and levels stay below [MAX_LEVEL], so neither the 64-bit
      wrap-around nor the conversion in [int i = max_level_] is ever reached.
    - The const and non-const overloads of find, lower_bound and upper_bound
      repeat one algorithm; each has one definition here. The comparator is
      a stateless function of the element type, the allocator is not
      modelled. *)

From Stdlib Require Import QArith Lia Permutation String.
From stdpp Require Import base list sorting.

Local Open Scope nat_scope.

(** ** Outcomes of an operation *)

Inductive outcome (A : Type) : Type :=
| Ret (a : A)
| Throw
| Fault
| Timeout.
Arguments Ret {A} a.
Arguments Throw {A}.
Arguments Fault {A}.
Arguments Timeout {A}.

Definition obind {A B} (m : outcome A) (k : A -> outcome B) : outcome B :=
  match m with
  | Ret a => k a
  | Throw => Throw
  | Fault => Fault
  | Timeout => Timeout
  end.

Notation "'do' x <- m ; k" := (obind m (fun x => k))
  (at level 10, x name, m at level 100, k at level 200).
Notation "'do' ( x , y ) <- m ; k" := (obind m (fun xy => let (x, y) := xy in k))
  (at level 10, x name, y name, m at level 100, k at level 200).

(** [std::vector::operator[]]: an index out of range is undefined behaviour. *)
Definition vec_at {A} (v : list A) (i : nat) : outcome A :=
  match v !! i with
  | Some x => Ret x
  | None => Fault
  end.

Definition vec_set {A} (v : list A) (i : nat) (x : A) : outcome (list A) :=
  if decide (i < length v) then Ret (<[i := x]> v) else Fault.

(** ** Constants and the level generator *)

Definition MAX_LEVEL : nat := 32.
Definition P : Q := 1 # 4.

Definition rng := nat -> Q.

(** One call of [dist_(gen_)]: the next draw and the advanced generator. *)
Definition draw (g : rng) : Q * rng := (g 0, fun n => g (S n)).

(** [d < P] on the draw. *)
Definition below_P (d : Q) : bool := negb (Qle_bool P d).

Fixpoint random_level_loop (fuel : nat) (g : rng) (level : nat) : outcome (nat * rng) :=
  match fuel with
  | 0 => Timeout
  | S fuel' =>
      let (d, g') := draw g in
      if below_P d && (level <? MAX_LEVEL - 1)
      then random_level_loop fuel' g' (S level)
      else Ret (level, g')
  end.

Definition random_level (g : rng) : outcome (nat * rng) :=
  random_level_loop (S MAX_LEVEL) g 0.

(** *** The generator's distribution

    A draw is below [P] or not; a pattern fixes that outcome for the first
    draws of a stream. Draws being independent and uniform on [0,1), a draw
    is below [P] with probability [P], and a pattern has the product of its
    draws' probabilities. *)

Fixpoint agrees (g : rng) (pat : list bool) : bool :=
  match pat with
  | [] => true
  | b :: pat' => Bool.eqb (below_P (g 0)) b && agrees (fun n => g (S n)) pat'
  end.

Fixpoint pattern_prob (pat : list bool) : Q :=
  match pat with
  | [] => 1
  | b :: pat' => ((if b then P else 1 - P) * pattern_prob pat')%Q
  end.

(** The draws that make the generator return [L]: [L] draws below [P], then
    one that is not, unless [L] is the cap. *)
Definition level_pattern (L : nat) : list bool :=
  repeat true L ++ (if L <? MAX_LEVEL - 1 then [false] else []).

Definition level_prob (L : nat) : Q := pattern_prob (level_pattern L).

Fixpoint Qpow (q : Q) (n : nat) : Q :=
  match n with
  | 0 => 1
  | S n' => (q * Qpow q n')%Q
  end.

(** ** Nodes, iterators and the container *)

Section SkipList.
Context {T : Type}.
(** [Compare::operator()], the value [T{}], and the element type's own
    [operator==] and [operator<] (used by [std::equal] and
    [std::lexicographical_compare]). *)
Variable comp_ : T -> T -> bool.
Variable T_default : T.
Variable T_eq : T -> T -> bool.
Variable T_lt : T -> T -> bool.

Record SkipListNode : Type := mkNode {
  value : T;
  forward : list (option nat);
  level : nat
}.

(** [SkipListNode(val, lvl)]: [forward.resize(lvl + 1)]. *)
Definition new_node (val : T) (lvl : nat) : SkipListNode :=
  mkNode val (replicate (lvl + 1) None) lvl.

(** The store of nodes: a [shared_ptr] names a node by its index. *)
Local Abbreviation store := (list SkipListNode).

(** [SkipListIterator]: its [current_] pointer. *)
Definition iterator := option nat.

Record skip_list : Type := mkSL {
  heap : store;
  head_ : option nat;
  size_ : nat;
  max_level_ : nat;
  gen_ : rng
}.

(** [p->...] on a shared pointer. *)
Definition deref (h : store) (p : option nat) : outcome SkipListNode :=
  match p with
  | None => Fault
  | Some n =>
      match h !! n with
      | Some nd => Ret nd
      | None => Fault
      end
  end.

(** [p->forward[i] = q]. *)
Definition set_forward (h : store) (p : option nat) (i : nat) (q : option nat) : outcome store :=
  match p with
  | None => Fault
  | Some n =>
      do nd <- deref h p;
      do fw <- vec_set (forward nd) i q;
      Ret (<[n := mkNode (value nd) fw (level nd)]> h)
  end.

(** *** Iterator operations *)

Definition iter_deref (h : store) (it : iterator) : outcome T :=
  match it with
  | None => Throw
  | Some n => do nd <- deref h (Some n); Ret (value nd)
  end.

Definition iter_arrow (h : store) (it : iterator) : outcome T :=
  match it with
  | None => Throw
  | Some n => do nd <- deref h (Some n); Ret (value nd)
  end.

(** [*it = v]: [operator*] of the non-const iterator returns [T&], so the
    assignment overwrites the value held by the node. *)
Definition iter_assign (h : store) (it : iterator) (v : T) : outcome store :=
  match it with
  | None => Throw
  | Some n =>
      do nd <- deref h (Some n);
      Ret (<[n := mkNode v (forward nd) (level nd)]> h)
  end.

Definition iter_incr (h : store) (it : iterator) : outcome iterator :=
  match it with
  | None => Ret None
  | Some n =>
      do nd <- deref h (Some n);
      match forward nd with
      | [] => Ret None
      | p :: _ => Ret p
      end
  end.

Definition iter_eq (a b : iterator) : bool := bool_decide (a = b).

(** [SkipListIterator() = default]: the pointer is null. *)
Definition default_iterator : iterator := None.

(** *** Construction, capacity, whole-structure operations *)

Definition new (g : rng) : skip_list :=
  mkSL [new_node T_default MAX_LEVEL] (Some 0) 0 0 g.

Definition begin (sl : skip_list) : outcome iterator :=
  do nd <- deref (heap sl) (head_ sl);
  vec_at (forward nd) 0.

Definition end_ (sl : skip_list) : iterator := None.

Definition empty (sl : skip_list) : bool := size_ sl =? 0.
Definition size (sl : skip_list) : nat := size_ sl.

Definition clear (sl : skip_list) : outcome skip_list :=
  match head_ sl with
  | None => Fault
  | Some hd =>
      do nd <- deref (heap sl) (Some hd);
      Ret (mkSL (<[hd := mkNode (value nd) (replicate MAX_LEVEL None) (level nd)]> (heap sl))
                (head_ sl) 0 0 (gen_ sl))
  end.

Definition swap (a b : skip_list) : skip_list * skip_list := (b, a).

(** [skip_list(skip_list&& other)]: the new object and what is left of [other]. *)
Definition move_construct (other : skip_list) : skip_list * skip_list :=
  (mkSL (heap other) (head_ other) (size_ other) (max_level_ other) (gen_ other),
   mkSL (heap other) None 0 0 (gen_ other)).

(** The right-hand side of an assignment: the assigned object itself
    ([this == &other]) or another object. *)
Inductive operand : Type :=
| itself
| another (other : skip_list).

(** [this = std::move(other)]: the assigned object and what is left of
    [other]. Under [if (this != &other)] the target is cleared and takes the
    source's members; a self-assignment changes nothing, and both names
    denote the one unchanged object. *)
Definition move_assign (this : skip_list) (rhs : operand) : outcome (skip_list * skip_list) :=
  match rhs with
  | itself => Ret (this, this)
  | another other =>
      do _ <- clear this;
      Ret (mkSL (heap other) (head_ other) (size_ other) (max_level_ other) (gen_ other),
           mkSL (heap other) None 0 0 (gen_ other))
  end.

(** An element of the container overwritten through an iterator. *)
Definition assign_through (sl : skip_list) (it : iterator) (v : T) : outcome skip_list :=
  do h <- iter_assign (heap sl) it v;
  Ret (mkSL h (head_ sl) (size_ sl) (max_level_ sl) (gen_ sl)).

(** *** The search engine *)

(** Fuel for the loops that follow links: a chain that visits no node twice
    has at most [length h] nodes. *)
Definition fuel_of (h : store) : nat := S (length h).

(** [while (current->forward[i] && go(current->forward[i]->value)) current = current->forward[i];] *)
Fixpoint advance (fuel : nat) (h : store) (go : T -> bool) (i : nat) (current : option nat)
  : outcome (option nat) :=
  match fuel with
  | 0 => Timeout
  | S fuel' =>
      do nd <- deref h current;
      do nxt <- vec_at (forward nd) i;
      match nxt with
      | None => Ret current
      | Some _ =>
          do nn <- deref h nxt;
          if go (value nn) then advance fuel' h go i nxt else Ret current
      end
  end.

(** [for (int i = max_level_; i >= 0; --i) { while ... }] *)
Fixpoint descend (h : store) (go : T -> bool) (i : nat) (current : option nat)
  : outcome (option nat) :=
  do c <- advance (fuel_of h) h go i current;
  match i with
  | 0 => Ret c
  | S j => descend h go j c
  end.

(** The same loop with [update[i] = current;] after each level. *)
Fixpoint descend_update (h : store) (go : T -> bool) (i : nat) (current : option nat)
    (update : list (option nat)) : outcome (option nat * list (option nat)) :=
  do c <- advance (fuel_of h) h go i current;
  do upd <- vec_set update i c;
  match i with
  | 0 => Ret (c, upd)
  | S j => descend_update h go j c upd
  end.

(** [current && !comp_(key, current->value) && !comp_(current->value, key)] *)
Definition matches (h : store) (key : T) (current : option nat) : outcome bool :=
  match current with
  | None => Ret false
  | Some _ =>
      do nd <- deref h current;
      Ret (negb (comp_ key (value nd)) && negb (comp_ (value nd) key))
  end.

Definition find_impl (sl : skip_list) (key : T) : outcome iterator :=
  do c <- descend (heap sl) (fun v => comp_ v key) (max_level_ sl) (head_ sl);
  do nd <- deref (heap sl) c;
  do current <- vec_at (forward nd) 0;
  do m <- matches (heap sl) key current;
  if m then Ret current else Ret None.

Definition find := find_impl.

Definition count (sl : skip_list) (key : T) : outcome nat :=
  do it <- find sl key;
  Ret (if negb (iter_eq it (end_ sl)) then 1 else 0).

Definition lower_bound_impl (sl : skip_list) (key : T) : outcome iterator :=
  do c <- descend (heap sl) (fun v => comp_ v key) (max_level_ sl) (head_ sl);
  do nd <- deref (heap sl) c;
  vec_at (forward nd) 0.

Definition upper_bound_impl (sl : skip_list) (key : T) : outcome iterator :=
  do c <- descend (heap sl) (fun v => negb (comp_ key v)) (max_level_ sl) (head_ sl);
  do nd <- deref (heap sl) c;
  vec_at (forward nd) 0.

Definition lower_bound := lower_bound_impl.
Definition upper_bound := upper_bound_impl.

Definition equal_range (sl : skip_list) (key : T) : outcome (iterator * iterator) :=
  do lo <- lower_bound sl key;
  do hi <- upper_bound sl key;
  Ret (lo, hi).

(** *** Insertion *)

(** [for (i = max_level_ + 1; i <= new_level; ++i) update[i] = head_;] *)
Fixpoint fill_head (update : list (option nat)) (hd : option nat) (i count : nat)
  : outcome (list (option nat)) :=
  match count with
  | 0 => Ret update
  | S k => do upd <- vec_set update i hd; fill_head upd hd (S i) k
  end.

(** [for (i = 0; i <= new_level; ++i) { new_node->forward[i] = update[i]->forward[i];
    update[i]->forward[i] = new_node; }] *)
Fixpoint splice (h : store) (update : list (option nat)) (nw : nat) (i count : nat)
  : outcome store :=
  match count with
  | 0 => Ret h
  | S k =>
      do u <- vec_at update i;
      do und <- deref h u;
      do f <- vec_at (forward und) i;
      do h1 <- set_forward h (Some nw) i f;
      do h2 <- set_forward h1 u i (Some nw);
      splice h2 update nw (S i) k
  end.

Definition insert_impl (sl : skip_list) (v : T) : outcome ((iterator * bool) * skip_list) :=
  let h := heap sl in
  let update0 := replicate MAX_LEVEL (head_ sl) in
  do (c, update) <- descend_update h (fun x => comp_ x v) (max_level_ sl) (head_ sl) update0;
  do nd <- deref h c;
  do current <- vec_at (forward nd) 0;
  do m <- matches h v current;
  if m then Ret ((current, false), sl)
  else
    do (new_level, g') <- random_level (gen_ sl);
    do update' <- (if decide (max_level_ sl < new_level)
                   then fill_head update (head_ sl) (max_level_ sl + 1) (new_level - max_level_ sl)
                   else Ret update);
    let max_level' := if decide (max_level_ sl < new_level) then new_level else max_level_ sl in
    let nw := length h in
    do h' <- splice (h ++ [new_node v new_level]) update' nw 0 (new_level + 1);
    Ret ((Some nw, true), mkSL h' (head_ sl) (size_ sl + 1) max_level' g').

Definition insert := insert_impl.

(** [emplace(args...)] is [insert(value_type(args...))]: the element is built
    from the arguments by one of the element type's constructors, then
    inserted. *)
Definition emplace {Args : Type} (value_type : Args -> T) (sl : skip_list) (args : Args)
  : outcome ((iterator * bool) * skip_list) :=
  insert sl (value_type args).

(** Inserting a sequence of values, as the initializer-list constructor's loop does. *)
Fixpoint insert_all (sl : skip_list) (vs : list T) : outcome skip_list :=
  match vs with
  | [] => Ret sl
  | v :: vs' => do (r, sl') <- insert sl v; insert_all sl' vs'
  end.

Definition from_list (g : rng) (init : list T) : outcome skip_list :=
  insert_all (new g) init.

(** *** Iteration and the relational operators *)

(** [for (it = first; it != end(); ++it) out.push_back( *it );] *)
Fixpoint collect (fuel : nat) (h : store) (it : iterator) : outcome (list T) :=
  match fuel with
  | 0 => Timeout
  | S fuel' =>
      match it with
      | None => Ret []
      | Some _ =>
          do x <- iter_deref h it;
          do it' <- iter_incr h it;
          do xs <- collect fuel' h it';
          Ret (x :: xs)
      end
  end.

Definition to_list (sl : skip_list) : outcome (list T) :=
  do b <- begin sl;
  collect (fuel_of (heap sl)) (heap sl) b.

(** [std::equal(first1, last1, first2)] with [last1 = end()]. *)
Fixpoint std_equal (fuel : nat) (h1 : store) (i1 : iterator) (h2 : store) (i2 : iterator)
  : outcome bool :=
  match fuel with
  | 0 => Timeout
  | S fuel' =>
      match i1 with
      | None => Ret true
      | Some _ =>
          do a <- iter_deref h1 i1;
          do b <- iter_deref h2 i2;
          if T_eq a b then
            do i1' <- iter_incr h1 i1;
            do i2' <- iter_incr h2 i2;
            std_equal fuel' h1 i1' h2 i2'
          else Ret false
      end
  end.

(** [std::lexicographical_compare(first1, end(), first2, end())]. *)
Fixpoint std_lexicographical_compare (fuel : nat) (h1 : store) (i1 : iterator)
    (h2 : store) (i2 : iterator) : outcome bool :=
  match fuel with
  | 0 => Timeout
  | S fuel' =>
      match i1, i2 with
      | Some _, Some _ =>
          do a <- iter_deref h1 i1;
          do b <- iter_deref h2 i2;
          if T_lt a b then Ret true
          else if T_lt b a then Ret false
          else
            do i1' <- iter_incr h1 i1;
            do i2' <- iter_incr h2 i2;
            std_lexicographical_compare fuel' h1 i1' h2 i2'
      | _, _ => Ret (iter_eq i1 None && negb (iter_eq i2 None))
      end
  end.

Definition op_eq (lhs rhs : skip_list) : outcome bool :=
  if negb (size lhs =? size rhs) then Ret false
  else
    do b1 <- begin lhs;
    do b2 <- begin rhs;
    std_equal (fuel_of (heap lhs)) (heap lhs) b1 (heap rhs) b2.

Definition op_ne (lhs rhs : skip_list) : outcome bool :=
  do r <- op_eq lhs rhs; Ret (negb r).

Definition op_lt (lhs rhs : skip_list) : outcome bool :=
  do b1 <- begin lhs;
  do b2 <- begin rhs;
  std_lexicographical_compare (fuel_of (heap lhs)) (heap lhs) b1 (heap rhs) b2.

Definition op_le (lhs rhs : skip_list) : outcome bool :=
  do r <- op_lt rhs lhs; Ret (negb r).

Definition op_gt (lhs rhs : skip_list) : outcome bool := op_lt rhs lhs.

Definition op_ge (lhs rhs : skip_list) : outcome bool :=
  do r <- op_lt lhs rhs; Ret (negb r).

(** [other] copied element by element into a fresh container seeded with [g]
    ([skip_list(const skip_list&)]). *)
Definition copy_construct (g : rng) (other : skip_list) : outcome skip_list :=
  do xs <- to_list other;
  from_list g xs.

(** [this = other] ([operator=(const skip_list&)]): under
    [if (this != &other)] a temporary copy of [other] is swapped into [this],
    and what [this] held goes away with the temporary; a self-assignment
    changes nothing. *)
Definition copy_assign (g : rng) (this : skip_list) (rhs : operand) : outcome skip_list :=
  match rhs with
  | itself => Ret this
  | another other =>
      do temp <- copy_construct g other;
      Ret (fst (swap this temp))
  end.

(** ** Specification vocabulary *)

(** The node ids visited from [begin()] until [end()]. *)
Fixpoint walk (fuel : nat) (h : store) (it : iterator) : outcome (list nat) :=
  match fuel with
  | 0 => Timeout
  | S fuel' =>
      match it with
      | None => Ret []
      | Some n =>
          do it' <- iter_incr h it;
          do ns <- walk fuel' h it';
          Ret (n :: ns)
      end
  end.

Definition positions (sl : skip_list) : outcome (list nat) :=
  do b <- begin sl;
  walk (fuel_of (heap sl)) (heap sl) b.

(** Slot [i] of node [n]: [None] when the node or the slot does not exist. *)
Definition next (h : store) (i n : nat) : option (option nat) :=
  match h !! n with
  | Some nd => forward nd !! i
  | None => None
  end.

(** Following index-[i] links from pointer [p] through exactly the nodes [l];
    the result is the pointer found after the last of them. *)
Fixpoint follow (h : store) (i : nat) (p : option nat) (l : list nat) : option (option nat) :=
  match l with
  | [] => Some p
  | n :: l' =>
      if decide (p = Some n) then
        match next h i n with
        | Some q => follow h i q l'
        | None => None
        end
      else None
  end.

Definition keyof (h : store) (n : nat) : T :=
  match h !! n with
  | Some nd => value nd
  | None => T_default
  end.

Definition lvl (h : store) (n : nat) : nat :=
  match h !! n with
  | Some nd => level nd
  | None => 0
  end.

Definition at_level (h : store) (i : nat) (l : list nat) : list nat :=
  filter (fun n => i <= lvl h n) l.

(** The last node of [hd :: at_level h i A]: where the level-[i] walk stops
    when [A] are the nodes the walk may pass. *)
Definition pred_at (h : store) (hd : nat) (A : list nat) (i : nat) : nat :=
  default hd (last (at_level h i A)).

(** What a link update never changes in a node. *)
Definition shape (nd : SkipListNode) : T * nat * nat :=
  (value nd, level nd, length (forward nd)).

Definition same_shape (h h' : store) : Prop :=
  length h' = length h /\ forall m, shape <$> (h' !! m) = shape <$> (h !! m).

(** The store after [n->forward[i] = q]. *)
Definition put_slot (h : store) (n i : nat) (q : option nat) : store :=
  match h !! n with
  | Some nd => <[n := mkNode (value nd) (<[i := q]> (forward nd)) (level nd)]> h
  | None => h
  end.

(** The index-[i] chain of a container: the nodes reached from the sentinel. *)
Definition is_chain (sl : skip_list) (i : nat) (l : list nat) : Prop :=
  exists hd, head_ sl = Some hd /\ follow (heap sl) i (Some hd) (hd :: l) = Some None.

Definition key_lt (h : store) (a b : nat) : Prop := comp_ (keyof h a) (keyof h b) = true.

(** Equivalence induced by the comparator. *)
Definition equiv_ (a b : T) : bool := negb (comp_ a b) && negb (comp_ b a).

(** A node is live when some forward link of the sentinel or of a live node
    refers to it. *)
Inductive live (sl : skip_list) : nat -> Prop :=
| live_head i hd m :
    head_ sl = Some hd -> next (heap sl) i hd = Some (Some m) -> live sl m
| live_step i n m :
    live sl n -> next (heap sl) i n = Some (Some m) -> live sl m.

(** Representation invariant: [L] is the index-0 chain behind sentinel [hd]. *)
Record sl_inv (sl : skip_list) (hd : nat) (L : list nat) : Prop := mk_sl_inv {
  inv_head : head_ sl = Some hd;
  inv_head_node : exists nd, heap sl !! hd = Some nd /\ MAX_LEVEL <= length (forward nd);
  inv_head_top : forall i m, next (heap sl) i hd = Some (Some m) -> i < MAX_LEVEL;
  inv_head_fresh : hd ∉ L;
  inv_nodes : forall n nd, heap sl !! n = Some nd -> n <> hd ->
      length (forward nd) = level nd + 1 /\ level nd < MAX_LEVEL;
  inv_alloc : forall n, n ∈ L -> n < length (heap sl);
  inv_levels : forall n, n ∈ L -> lvl (heap sl) n <= max_level_ sl;
  inv_max : max_level_ sl < MAX_LEVEL;
  inv_sorted : StronglySorted (key_lt (heap sl)) L;
  inv_chain : forall i, i < MAX_LEVEL ->
      follow (heap sl) i (Some hd) (hd :: at_level (heap sl) i L) = Some None;
  inv_size : size_ sl = length L
}.

(** States a program can bring one container object into. *)
Inductive reachable : skip_list -> Prop :=
| reach_new g : reachable (new g)
| reach_insert sl v r sl' :
    reachable sl -> insert sl v = Ret (r, sl') -> reachable sl'
| reach_clear sl sl' :
    reachable sl -> clear sl = Ret sl' -> reachable sl'
| reach_move_to sl :
    reachable sl -> reachable (fst (move_construct sl))
| reach_moved_from sl :
    reachable sl -> reachable (snd (move_construct sl)).

(** One call that adds an element: [insert(v)] or [emplace(args...)]. *)
Inductive insertion : Type :=
| by_insert (v : T)
| by_emplace {Args : Type} (value_type : Args -> T) (args : Args).

Definition run_insertion (sl : skip_list) (c : insertion)
  : outcome ((iterator * bool) * skip_list) :=
  match c with
  | by_insert v => insert sl v
  | by_emplace value_type args => emplace value_type sl args
  end.

(** A sequence of such calls on one container. *)
Fixpoint run_insertions (sl : skip_list) (cs : list insertion) : outcome skip_list :=
  match cs with
  | [] => Ret sl
  | c :: cs' => do (r, sl') <- run_insertion sl c; run_insertions sl' cs'
  end.

(** The key a call presents to the container. *)
Definition inserted_key (c : insertion) : T :=
  match c with
  | by_insert v => v
  | by_emplace value_type args => value_type args
  end.

(** States a program reaches with the container's member functions alone:
    the constructors, insert, emplace, clear, swap and the two assignments.
    No step modifies a node from outside the container, through what a
    non-const iterator returns ([operator*], [operator->], [get_node]). *)
Inductive reachable_by_members : skip_list -> Prop :=
| members_new g : reachable_by_members (new g)
| members_from_list g init sl :
    from_list g init = Ret sl -> reachable_by_members sl
| members_insert sl v r sl' :
    reachable_by_members sl -> insert sl v = Ret (r, sl') -> reachable_by_members sl'
| members_emplace {Args : Type} (value_type : Args -> T) sl args r sl' :
    reachable_by_members sl -> emplace value_type sl args = Ret (r, sl') ->
    reachable_by_members sl'
| members_clear sl sl' :
    reachable_by_members sl -> clear sl = Ret sl' -> reachable_by_members sl'
| members_swap_fst a b :
    reachable_by_members a -> reachable_by_members b -> reachable_by_members (fst (swap a b))
| members_swap_snd a b :
    reachable_by_members a -> reachable_by_members b -> reachable_by_members (snd (swap a b))
| members_copy g other cp :
    reachable_by_members other -> copy_construct g other = Ret cp -> reachable_by_members cp
| members_move_to sl :
    reachable_by_members sl -> reachable_by_members (fst (move_construct sl))
| members_moved_from sl :
    reachable_by_members sl -> reachable_by_members (snd (move_construct sl))
| members_copy_assign g this other cp :
    reachable_by_members this -> reachable_by_members other ->
    copy_assign g this (another other) = Ret cp -> reachable_by_members cp
| members_copy_assign_self g this cp :
    reachable_by_members this -> copy_assign g this itself = Ret cp -> reachable_by_members cp
| members_move_assign_to this other dst src :
    reachable_by_members this -> reachable_by_members other ->
    move_assign this (another other) = Ret (dst, src) -> reachable_by_members dst
| members_move_assigned_from this other dst src :
    reachable_by_members this -> reachable_by_members other ->
    move_assign this (another other) = Ret (dst, src) -> reachable_by_members src
| members_move_assign_self this dst src :
    reachable_by_members this -> move_assign this itself = Ret (dst, src) ->
    reachable_by_members dst.

(** The distinct keys of a sequence, first occurrences in order of arrival. *)
Definition distinct_step (acc : list T) (k : T) : list T :=
  if existsb (equiv_ k) acc then acc else acc ++ [k].

Definition distinct (ks : list T) : list T := foldl distinct_step [] ks.

(** First element of a list satisfying a test. *)
Fixpoint first_such {A} (f : A -> bool) (l : list A) : option A :=
  match l with
  | [] => None
  | x :: l' => if f x then Some x else first_such f l'
  end.

(** The nodes visited by [for (it = first; it != last; ++it)]. *)
Fixpoint walk_to (fuel : nat) (h : store) (it last : iterator) : outcome (list nat) :=
  match fuel with
  | 0 => Timeout
  | S fuel' =>
      if iter_eq it last then Ret []
      else
        do it' <- iter_incr h it;
        do ns <- walk_to fuel' h it' last;
        Ret (match it with Some n => n :: ns | None => ns end)
  end.

(** Lexicographic order of two sequences under the element type's [<]. *)
Fixpoint lex_lt (xs ys : list T) : bool :=
  match xs, ys with
  | [], [] => false
  | [], _ :: _ => true
  | _ :: _, [] => false
  | x :: xs', y :: ys' =>
      if T_lt x y then true else if T_lt y x then false else lex_lt xs' ys'
  end.

(** Element-wise equality of two sequences under the element type's [==]. *)
Fixpoint seq_eq (xs ys : list T) : bool :=
  match xs, ys with
  | [], [] => true
  | x :: xs', y :: ys' => T_eq x y && seq_eq xs' ys'
  | _, _ => false
  end.

End SkipList.

Arguments MAX_LEVEL : simpl never.

(** ** Concrete containers *)

(** A generator whose draws alternate between 1/8 and 1/2. *)
Definition demo_rng : rng := fun n => if Nat.even n then 1 # 8 else 1 # 2.

Definition steady_rng : rng := fun _ => 1 # 2.

Definition demo_keys : list nat := [3; 1; 4; 1; 5].

(** [skip_list<int> sl = {3, 1, 4, 1, 5};] *)
Definition demo_sl : @skip_list nat :=
  match from_list Nat.ltb 0 demo_rng demo_keys with
  | Ret sl => sl
  | _ => new 0 demo_rng
  end.

(** [skip_list<int> sl = {6, 2, 1};] *)
Definition other_sl : @skip_list nat :=
  match from_list Nat.ltb 0 steady_rng [6; 2; 1] with
  | Ret sl => sl
  | _ => new 0 steady_rng
  end.

(** [demo_sl] after [insert(2)], and after [clear()]. *)
Definition demo_sl_2 : @skip_list nat :=
  match insert Nat.ltb demo_sl 2 with
  | Ret (_, sl) => sl
  | _ => demo_sl
  end.

Definition demo_cleared : @skip_list nat :=
  match clear demo_sl with
  | Ret sl => sl
  | _ => demo_sl
  end.

(** [sl.insert(3); sl.emplace(1); sl.insert(4); sl.emplace(1); sl.insert(5);] *)
Definition demo_calls : list (@insertion nat) :=
  [by_insert 3; by_emplace (fun n : nat => n) 1; by_insert 4;
   by_emplace (fun n : nat => n) 1; by_insert 5].

(** [demo_sl] after [*sl.begin() = 9;]. *)
Definition demo_written : @skip_list nat :=
  match (do b <- begin demo_sl; assign_through demo_sl b 9) with
  | Ret sl => sl
  | _ => demo_sl
  end.

(** The tests' [TestStruct]: [operator<] compares [value] only, [operator==]
    compares [value] and [name]. *)
Definition TestStruct : Type := nat * string.

Definition ts_less (a b : TestStruct) : bool := fst a <? fst b.

Definition ts_eq (a b : TestStruct) : bool :=
  (fst a =? fst b) && String.eqb (snd a) (snd b).

Definition ts_default : TestStruct := (0, EmptyString).
Definition ts_one : TestStruct := (1, "one"%string).
Definition ts_uno : TestStruct := (1, "uno"%string).

(** * Proofs *)

(** ** The level generator *)

Lemma random_level_loop_ok (fuel : nat) (g : rng) (level : nat) :
  level <= MAX_LEVEL - 1 -> MAX_LEVEL - 1 - level < fuel ->
  exists lv g', random_level_loop fuel g level = Ret (lv, g') /\
                level <= lv <= MAX_LEVEL - 1.
Proof.
  revert g level. induction fuel as [|fuel IH]; intros g level Hl Hf; [lia|].
  cbn [random_level_loop draw].
  destruct (below_P (g 0)); cbn [andb].
  - destruct (Nat.ltb_spec level (MAX_LEVEL - 1)) as [Hlt|Hge].
    + destruct (IH (fun n => g (S n)) (S level)) as (lv & g' & -> & Hb); [lia..|].
      exists lv, g'. split; [done|lia].
    + eexists _, _. split; [done|lia].
  - eexists _, _. split; [done|lia].
Qed.

Lemma random_level_total (g : rng) :
  exists lv g', random_level g = Ret (lv, g') /\ lv <= MAX_LEVEL - 1.
Proof.
  destruct (random_level_loop_ok (S MAX_LEVEL) g 0) as (lv & g' & H & Hb).
  - lia.
  - unfold MAX_LEVEL. lia.
  - exists lv, g'. split; [exact H|lia].
Qed.

Lemma random_level_loop_pattern (fuel : nat) : forall (g : rng) (level L : nat),
  level <= L <= MAX_LEVEL - 1 -> MAX_LEVEL - 1 - level < fuel ->
  (exists g', random_level_loop fuel g level = Ret (L, g')) <->
  agrees g (repeat true (L - level) ++ (if L <? MAX_LEVEL - 1 then [false] else [])) = true.
Proof.
  induction fuel as [|fuel IH]; intros g level L HL Hf; [lia|].
  cbn [random_level_loop draw].
  destruct (below_P (g 0)) eqn:Hb; cbn [andb].
  - destruct (Nat.ltb_spec level (MAX_LEVEL - 1)) as [Hlt|Hge].
    + destruct (decide (L = level)) as [->|Hne].
      * rewrite Nat.sub_diag. cbn [repeat app].
        destruct (Nat.ltb_spec level (MAX_LEVEL - 1)); [|lia].
        cbn [agrees]. rewrite Hb. cbn. split; [|done]. intros [g' Hg'].
        destruct (random_level_loop_ok fuel (fun n => g (S n)) (S level))
          as (lv & g2 & Hlv & Hle); [lia..|].
        rewrite Hlv in Hg'. injection Hg' as -> _. lia.
      * replace (L - level) with (S (L - S level)) by lia. cbn [repeat app agrees].
        rewrite Hb. cbn [Bool.eqb andb]. apply IH; lia.
    + assert (L = level) as -> by lia. rewrite Nat.sub_diag. cbn [repeat app].
      destruct (Nat.ltb_spec level (MAX_LEVEL - 1)); [lia|]. cbn [agrees].
      split; [done|]. intros _. by eexists.
  - destruct (decide (L = level)) as [->|Hne].
    + rewrite Nat.sub_diag. cbn [repeat app].
      split; [intros _|intros _; by eexists].
      destruct (level <? MAX_LEVEL - 1); cbn [agrees]; [by rewrite Hb|done].
    + replace (L - level) with (S (L - S level)) by lia. cbn [repeat app agrees].
      rewrite Hb. cbn [Bool.eqb andb]. split; [|done]. intros [g' [= ? _]]. lia.
Qed.

Lemma pattern_prob_app (p1 p2 : list bool) :
  (pattern_prob (p1 ++ p2) == pattern_prob p1 * pattern_prob p2)%Q.
Proof.
  induction p1 as [|b p1 IH]; cbn [app pattern_prob].
  - by rewrite Qmult_1_l.
  - rewrite IH. by rewrite Qmult_assoc.
Qed.

Lemma pattern_prob_repeat (n : nat) : (pattern_prob (repeat true n) == Qpow P n)%Q.
Proof. induction n as [|n IH]; cbn [repeat pattern_prob Qpow]; [done|by rewrite IH]. Qed.

(** C5 (as amended). The generator always returns a level in
    [0, MAX_LEVEL - 1]; it returns [L] exactly when the first [L] draws are
    below [P] and, unless [L] is the cap, the next one is not; so with
    independent uniform draws it returns [L < MAX_LEVEL - 1] with probability
    [P^L * (1 - P)] and the cap [MAX_LEVEL - 1] with probability
    [P^(MAX_LEVEL - 1)]. *)
Theorem random_level_distribution :
  (forall g, exists L g', random_level g = Ret (L, g') /\ L <= MAX_LEVEL - 1) /\
  (forall g L, L <= MAX_LEVEL - 1 ->
     (exists g', random_level g = Ret (L, g')) <-> agrees g (level_pattern L) = true) /\
  (forall L, L < MAX_LEVEL - 1 -> (level_prob L == Qpow P L * (1 - P))%Q) /\
  (level_prob (MAX_LEVEL - 1) == Qpow P (MAX_LEVEL - 1))%Q.
Proof.
  split; [exact random_level_total|]. split; [|split].
  - intros g L HL. unfold random_level, level_pattern.
    rewrite (random_level_loop_pattern (S MAX_LEVEL) g 0 L) by (unfold MAX_LEVEL in *; lia).
    by rewrite Nat.sub_0_r.
  - intros L HL. unfold level_prob, level_pattern.
    destruct (Nat.ltb_spec L (MAX_LEVEL - 1)); [|lia].
    rewrite pattern_prob_app, pattern_prob_repeat. cbn [pattern_prob].
    by rewrite Qmult_1_r.
  - unfold level_prob, level_pattern.
    destruct (Nat.ltb_spec (MAX_LEVEL - 1) (MAX_LEVEL - 1)); [lia|].
    rewrite pattern_prob_app, pattern_prob_repeat. cbn [pattern_prob].
    by rewrite Qmult_1_r.
Qed.

Lemma random_level_loop_consumes (fuel : nat) : forall (g : rng) (level L : nat) g',
  random_level_loop fuel g level = Ret (L, g') ->
  level <= L /\ forall n, g' n = g (S (L - level) + n).
Proof.
  induction fuel as [|fuel IH]; intros g level L g' H; [done|].
  cbn [random_level_loop draw] in H.
  destruct (below_P (g 0) && (level <? MAX_LEVEL - 1)).
  - apply IH in H as [Hle Hg]. split; [lia|]. intros n. rewrite Hg.
    replace (S (L - level)) with (S (S (L - S level))) by lia. done.
  - injection H as <- <-. split; [done|]. intros n. by rewrite Nat.sub_diag.
Qed.

(** The generator consumes exactly one draw more than the level it returns. *)
Lemma random_level_consumes (g : rng) (L : nat) (g' : rng) :
  random_level g = Ret (L, g') -> forall n, g' n = g (S L + n).
Proof.
  intros H n. apply random_level_loop_consumes in H as [_ H]. by rewrite H, Nat.sub_0_r.
Qed.

(** The probabilities of the levels 0 .. MAX_LEVEL - 1 add up to 1. *)
Lemma level_prob_total :
  (fold_right Qplus 0 (map level_prob (seq 0 MAX_LEVEL)) == 1)%Q.
Proof. vm_compute. reflexivity. Qed.

(** C5 (counterexample). Level 0 is returned when the first draw is not
    below [P], with probability 3/4, not [P * (1 - P)^0 = 1/4]. *)
Lemma level_zero_probability :
  (level_prob 0 == 3 # 4)%Q /\ ~ (level_prob 0 == P * Qpow (1 - P) 0)%Q.
Proof. split; [done|]. by intros H. Qed.

Section Proofs.
Context {T : Type}.
Variable comp_ : T -> T -> bool.
Variable T_default : T.

Local Abbreviation key := (keyof T_default).
Local Abbreviation before := (key_lt comp_ T_default).
Local Abbreviation Inv := (sl_inv comp_ T_default).

Local Abbreviation store := (list (@SkipListNode T)).

Implicit Types (h : store) (sl : @skip_list T) (L A B : list nat) (p q : option nat).

(** ** Links and chains *)

Lemma next_Some h i n q :
  next h i n = Some q <-> exists nd, h !! n = Some nd /\ forward nd !! i = Some q.
Proof.
  unfold next. destruct (h !! n) as [nd|]; split.
  - intros H. by exists nd.
  - intros (nd' & [= <-] & H). done.
  - done.
  - intros (nd' & [=] & _).
Qed.

Lemma follow_cons h i n l q :
  follow h i (Some n) (n :: l) = Some q <->
  exists r, next h i n = Some r /\ follow h i r l = Some q.
Proof.
  cbn [follow]. rewrite decide_True by done.
  destruct (next h i n) as [r|]; split.
  - intros H. by exists r.
  - intros (r' & [= <-] & H). done.
  - done.
  - intros (r' & [=] & _).
Qed.

Lemma follow_app h i p l1 l2 q :
  follow h i p (l1 ++ l2) = Some q <->
  exists r, follow h i p l1 = Some r /\ follow h i r l2 = Some q.
Proof.
  revert p. induction l1 as [|n l1 IH]; intros p; cbn [follow app].
  - split; [intros H; by exists p | intros (r & [= <-] & H); done].
  - destruct (decide (p = Some n)); [|split; [done|intros (r & [=] & _)]].
    destruct (next h i n) as [r|]; [apply IH|].
    split; [done|intros (r & [=] & _)].
Qed.

Lemma follow_head h i p n l q : follow h i p (n :: l) = Some q -> p = Some n.
Proof. cbn [follow]. by destruct (decide (p = Some n)). Qed.

(** The links determine the chain. *)
Lemma follow_unique h i l1 : forall p l2,
  follow h i p l1 = Some None -> follow h i p l2 = Some None -> l1 = l2.
Proof.
  induction l1 as [|n l1 IH]; intros p l2 H1 H2.
  - cbn in H1. injection H1 as ->. destruct l2 as [|m l2]; [done|].
    by apply follow_head in H2.
  - pose proof (follow_head _ _ _ _ _ _ H1) as ->.
    destruct l2 as [|m l2]; [done|].
    pose proof (follow_head _ _ _ _ _ _ H2) as [= <-].
    apply follow_cons in H1 as (r1 & Hr1 & H1). apply follow_cons in H2 as (r2 & Hr2 & H2).
    rewrite Hr1 in Hr2. injection Hr2 as <-. f_equal. by apply (IH r1).
Qed.

Lemma follow_frame h h' i p l :
  (forall n, n ∈ l -> next h' i n = next h i n) ->
  follow h' i p l = follow h i p l.
Proof.
  revert p. induction l as [|n l IH]; intros p Hn; [done|].
  cbn [follow]. destruct (decide (p = Some n)); [|done].
  rewrite Hn by left. destruct (next h i n); [|done].
  apply IH. intros m Hm. apply Hn. by right.
Qed.

Lemma follow_alloc h i p l q n :
  follow h i p l = Some q -> n ∈ l -> is_Some (h !! n).
Proof.
  revert p. induction l as [|m l IH]; intros p H Hn; [by apply elem_of_nil in Hn|].
  pose proof (follow_head _ _ _ _ _ _ H) as ->.
  apply follow_cons in H as (r & Hr & H).
  apply elem_of_cons in Hn as [->|Hn]; [|by eapply IH].
  apply next_Some in Hr as (nd & Hnd & _). by exists nd.
Qed.

Lemma keyof_lookup h n nd : h !! n = Some nd -> key h n = value nd.
Proof. unfold keyof. by intros ->. Qed.

Lemma lvl_lookup h n nd : h !! n = Some nd -> lvl h n = level nd.
Proof. unfold lvl. by intros ->. Qed.

Lemma default_last_cons {X} (c a : X) (l : list X) :
  default c (last (a :: l)) = default a (last l).
Proof. rewrite last_cons. by destruct (last l). Qed.

(** ** The search loop *)

Lemma advance_spec h (go : T -> bool) i l1 l2 c fuel :
  follow h i (Some c) (c :: l1 ++ l2) = Some None ->
  Forall (fun n => go (key h n) = true) l1 ->
  Forall (fun n => go (key h n) = false) l2 ->
  length l1 < fuel ->
  advance fuel h go i (Some c) = Ret (Some (default c (last l1))).
Proof.
  revert c fuel. induction l1 as [|a l1 IH]; intros c fuel Hf H1 H2 Hfuel.
  - destruct fuel as [|fuel]; [cbn in Hfuel; lia|].
    apply follow_cons in Hf as (r & Hr & Hf).
    apply next_Some in Hr as (nd & Hnd & Hr).
    cbn [advance deref]. rewrite Hnd. cbn [obind]. unfold vec_at. rewrite Hr. cbn [obind].
    destruct r as [b|]; [|done].
    destruct l2 as [|b' l2]; [cbn in Hf; congruence|]. cbn [app] in Hf.
    pose proof (follow_head _ _ _ _ _ _ Hf) as [= ->].
    apply follow_cons in Hf as (r' & Hr' & _).
    apply next_Some in Hr' as (ndb & Hndb & _).
    cbn [deref]. rewrite Hndb. cbn [obind].
    apply Forall_cons in H2 as [Hb _]. rewrite (keyof_lookup _ _ _ Hndb) in Hb.
    by rewrite Hb.
  - destruct fuel as [|fuel]; [cbn in Hfuel; lia|].
    apply follow_cons in Hf as (r & Hr & Hf). cbn [app] in Hf.
    pose proof (follow_head _ _ _ _ _ _ Hf) as ->.
    apply next_Some in Hr as (nd & Hnd & Hr).
    cbn [advance deref]. rewrite Hnd. cbn [obind]. unfold vec_at. rewrite Hr. cbn [obind].
    pose proof Hf as Hf'. apply follow_cons in Hf' as (r' & Hr' & _).
    apply next_Some in Hr' as (nda & Hnda & _).
    cbn [deref]. rewrite Hnda. cbn [obind].
    apply Forall_cons in H1 as [Ha H1]. rewrite (keyof_lookup _ _ _ Hnda) in Ha.
    rewrite Ha. rewrite default_last_cons. apply IH; [done..|]. cbn in Hfuel. lia.
Qed.

Lemma length_le_store h L :
  NoDup L -> (forall n, n ∈ L -> n < length h) -> length L <= length h.
Proof.
  intros Hnd Hlt.
  assert (L ⊆+ seq 0 (length h)) as Hsub.
  { apply NoDup_submseteq; [done|]. intros n Hn. apply elem_of_seq. specialize (Hlt n Hn). lia. }
  apply submseteq_length in Hsub. by rewrite length_seq in Hsub.
Qed.

Lemma at_level_app h i l1 l2 : at_level h i (l1 ++ l2) = at_level h i l1 ++ at_level h i l2.
Proof. apply filter_app. Qed.

Lemma at_level_0 h l : at_level h 0 l = l.
Proof.
  unfold at_level. induction l as [|n l IH]; [done|].
  rewrite filter_cons_True by lia. by rewrite IH.
Qed.

Lemma elem_of_at_level h i l n : n ∈ at_level h i l <-> i <= lvl h n /\ n ∈ l.
Proof. unfold at_level. by rewrite list_elem_of_filter. Qed.

Lemma at_level_above h i l : (forall n, n ∈ l -> lvl h n < i) -> at_level h i l = [].
Proof.
  intros H. unfold at_level. induction l as [|n l IH]; [done|].
  rewrite filter_cons_False; [apply IH; intros m Hm; apply H; by right|].
  specialize (H n ltac:(left)). lia.
Qed.

Lemma at_level_length h i l : length (at_level h i l) <= length l.
Proof. unfold at_level. apply length_filter. Qed.

Lemma Forall_at_level (Q : nat -> Prop) h i l : Forall Q l -> Forall Q (at_level h i l).
Proof. intros H. rewrite Forall_forall in *. intros n [_ Hn]%elem_of_at_level. auto. Qed.

Lemma pred_at_0 h hd A : pred_at h hd A 0 = default hd (last A).
Proof. unfold pred_at. by rewrite at_level_0. Qed.

Lemma pred_at_above h hd A i :
  (forall n, n ∈ A -> lvl h n < i) -> pred_at h hd A i = hd.
Proof. intros H. unfold pred_at. by rewrite at_level_above. Qed.

Lemma pred_at_cases h hd A i :
  pred_at h hd A i = hd /\ at_level h i A = [] \/
  exists X, at_level h i A = X ++ [pred_at h hd A i].
Proof.
  unfold pred_at. destruct (at_level h i A) as [|x l] eqn:E using rev_ind; [by left|].
  right. rewrite last_snoc. cbn. by exists l.
Qed.

Lemma pred_at_elem h hd A i : pred_at h hd A i = hd \/ pred_at h hd A i ∈ A.
Proof.
  destruct (pred_at_cases h hd A i) as [[? _]|[X HX]]; [by left|right].
  assert (pred_at h hd A i ∈ at_level h i A) as H.
  { rewrite HX. apply elem_of_app. right. by left. }
  by apply elem_of_at_level in H as [_ ?].
Qed.

(** One level of the descent: entering level [i] at the node where level
    [i + 1] stopped, the walk stops at the last passable node of level [i]. *)
Lemma advance_level h hd A B (go : T -> bool) i :
  NoDup (A ++ B) -> (forall n, n ∈ A ++ B -> n < length h) ->
  follow h i (Some hd) (hd :: at_level h i (A ++ B)) = Some None ->
  Forall (fun n => go (key h n) = true) A ->
  Forall (fun n => go (key h n) = false) B ->
  advance (fuel_of h) h go i (Some (pred_at h hd A (S i)))
  = Ret (Some (pred_at h hd A i)).
Proof.
  intros Hnd Hal Hf HA HB. rewrite at_level_app in Hf.
  assert (length (at_level h i A) < fuel_of h) as Hfuel.
  { unfold fuel_of. pose proof (at_level_length h i A).
    pose proof (length_le_store h _ Hnd Hal) as Hle. rewrite length_app in Hle. lia. }
  destruct (pred_at_cases h hd A (S i)) as [[-> _]|[X' HX']].
  - apply advance_spec with (l2 := at_level h i B); auto using Forall_at_level.
  - set (c := pred_at h hd A (S i)) in *.
    assert (c ∈ at_level h i A) as Hc.
    { assert (c ∈ at_level h (S i) A) as Hc by (rewrite HX'; apply elem_of_app; right; by left).
      apply elem_of_at_level in Hc as [? ?]. apply elem_of_at_level. split; [lia|done]. }
    apply list_elem_of_split in Hc as (X & Y & HXY).
    assert (pred_at h hd A i = default c (last Y)) as ->.
    { unfold pred_at. rewrite HXY, last_app_cons. apply default_last_cons. }
    rewrite HXY in Hf, Hfuel.
    replace (hd :: (X ++ c :: Y) ++ at_level h i B)
      with ((hd :: X) ++ (c :: Y ++ at_level h i B)) in Hf
      by (cbn; by rewrite <- app_assoc).
    apply follow_app in Hf as (r & _ & Hf).
    pose proof (follow_head _ _ _ _ _ _ Hf) as ->.
    apply advance_spec with (l2 := at_level h i B); auto using Forall_at_level.
    + assert (Forall (fun n => go (key h n) = true) (at_level h i A)) as HA'
        by auto using Forall_at_level.
      rewrite HXY in HA'. apply Forall_app in HA' as [_ HA'].
      by apply Forall_cons in HA' as [_ ?].
    + rewrite length_app in Hfuel. cbn in Hfuel. lia.
Qed.

Lemma descend_spec h hd A B (go : T -> bool) i :
  NoDup (A ++ B) -> (forall n, n ∈ A ++ B -> n < length h) ->
  (forall j, j <= i -> follow h j (Some hd) (hd :: at_level h j (A ++ B)) = Some None) ->
  Forall (fun n => go (key h n) = true) A ->
  Forall (fun n => go (key h n) = false) B ->
  descend h go i (Some (pred_at h hd A (S i))) = Ret (Some (pred_at h hd A 0)).
Proof.
  intros Hnd Hal Hf HA HB. induction i as [|i IH].
  - cbn [descend]. by rewrite (advance_level h hd A B) by auto.
  - cbn [descend]. rewrite (advance_level h hd A B) by auto. cbn [obind]. apply IH. auto.
Qed.

Lemma descend_update_spec h hd A B (go : T -> bool) i (update : list (option nat)) :
  NoDup (A ++ B) -> (forall n, n ∈ A ++ B -> n < length h) ->
  (forall j, j <= i -> follow h j (Some hd) (hd :: at_level h j (A ++ B)) = Some None) ->
  Forall (fun n => go (key h n) = true) A ->
  Forall (fun n => go (key h n) = false) B ->
  i < length update ->
  exists upd,
    descend_update h go i (Some (pred_at h hd A (S i))) update
    = Ret (Some (pred_at h hd A 0), upd) /\
    length upd = length update /\
    (forall j, j <= i -> upd !! j = Some (Some (pred_at h hd A j))) /\
    (forall j, i < j -> upd !! j = update !! j).
Proof.
  intros Hnd Hal Hf HA HB. revert update. induction i as [|i IH]; intros update Hlen.
  - cbn [descend_update]. rewrite (advance_level h hd A B) by auto. cbn [obind].
    unfold vec_set. rewrite decide_True by done. cbn [obind].
    eexists. split; [done|]. split; [by rewrite length_insert|]. split.
    + intros j Hj. assert (j = 0) as -> by lia. by rewrite list_lookup_insert_eq.
    + intros j Hj. rewrite list_lookup_insert_ne by lia. done.
  - cbn [descend_update]. rewrite (advance_level h hd A B) by auto. cbn [obind].
    unfold vec_set. rewrite decide_True by done. cbn [obind].
    destruct (IH ltac:(auto) (<[S i := Some (pred_at h hd A (S i))]> update))
      as (upd & -> & Hl & Hlo & Hhi); [rewrite length_insert; lia|].
    exists upd. split; [done|]. rewrite length_insert in Hl. split; [done|]. split.
    + intros j Hj. destruct (decide (j = S i)) as [->|].
      * rewrite Hhi by lia. by rewrite list_lookup_insert_eq.
      * apply Hlo. lia.
    + intros j Hj. rewrite Hhi by lia. rewrite list_lookup_insert_ne by lia. done.
Qed.

(** ** Link updates *)

Lemma set_forward_ok h n i q nd :
  h !! n = Some nd -> i < length (forward nd) ->
  set_forward h (Some n) i q = Ret (put_slot h n i q).
Proof.
  intros Hn Hi. unfold set_forward, put_slot, deref, vec_set. rewrite Hn. cbn [obind].
  by rewrite decide_True by done.
Qed.

Lemma put_slot_length h n i q : length (put_slot h n i q) = length h.
Proof. unfold put_slot. destruct (h !! n); [apply length_insert|done]. Qed.

Lemma put_slot_lookup_ne h n i q m : m <> n -> put_slot h n i q !! m = h !! m.
Proof.
  intros Hne. unfold put_slot. destruct (h !! n); [|done].
  by apply list_lookup_insert_ne.
Qed.

Lemma put_slot_lookup_eq h n i q nd :
  h !! n = Some nd ->
  put_slot h n i q !! n = Some (mkNode (value nd) (<[i := q]> (forward nd)) (level nd)).
Proof.
  intros Hn. unfold put_slot. rewrite Hn. apply list_lookup_insert_eq.
  by apply lookup_lt_Some in Hn.
Qed.

Lemma next_put_slot_eq h n i q nd :
  h !! n = Some nd -> i < length (forward nd) -> next (put_slot h n i q) i n = Some q.
Proof.
  intros Hn Hi. unfold next. rewrite (put_slot_lookup_eq _ _ _ _ _ Hn). cbn.
  by apply list_lookup_insert_eq.
Qed.

Lemma next_put_slot_ne h n i q j m :
  m <> n \/ j <> i -> next (put_slot h n i q) j m = next h j m.
Proof.
  intros Hne. unfold next. destruct (decide (m = n)) as [->|Hmn].
  - destruct Hne as [?|Hji]; [done|]. destruct (h !! n) as [nd|] eqn:Hn.
    + rewrite (put_slot_lookup_eq _ _ _ _ _ Hn). cbn. by rewrite list_lookup_insert_ne.
    + unfold put_slot. by rewrite Hn, Hn.
  - by rewrite put_slot_lookup_ne.
Qed.

Lemma same_shape_refl h : same_shape h h.
Proof. by split. Qed.

Lemma same_shape_trans h1 h2 h3 : same_shape h1 h2 -> same_shape h2 h3 -> same_shape h1 h3.
Proof. intros [L1 S1] [L2 S2]. split; [congruence|]. intros m. by rewrite S2, S1. Qed.

Lemma same_shape_put_slot h n i q : same_shape h (put_slot h n i q).
Proof.
  split; [apply put_slot_length|]. intros m. destruct (decide (m = n)) as [->|Hne].
  - destruct (h !! n) as [nd|] eqn:Hn.
    + rewrite (put_slot_lookup_eq _ _ _ _ _ Hn). cbn. unfold shape. cbn.
      by rewrite length_insert.
    + unfold put_slot. by rewrite Hn, Hn.
  - by rewrite put_slot_lookup_ne.
Qed.

Lemma same_shape_lookup h h' m nd :
  same_shape h h' -> h !! m = Some nd ->
  exists nd', h' !! m = Some nd' /\ value nd' = value nd /\ level nd' = level nd /\
              length (forward nd') = length (forward nd).
Proof.
  intros [_ Hs] Hm. specialize (Hs m). rewrite Hm in Hs.
  destruct (h' !! m) as [nd'|]; [|done]. cbn in Hs. injection Hs as ? ? ?. by exists nd'.
Qed.

Lemma same_shape_sym h h' : same_shape h h' -> same_shape h' h.
Proof. intros [Hl Hs]. by split. Qed.

Lemma same_shape_keyof h h' m : same_shape h h' -> key h' m = key h m.
Proof.
  intros [_ Hs]. specialize (Hs m). unfold keyof.
  destruct (h' !! m), (h !! m); cbn in Hs; try done; by injection Hs.
Qed.

Lemma same_shape_lvl h h' m : same_shape h h' -> lvl h' m = lvl h m.
Proof.
  intros [_ Hs]. specialize (Hs m). unfold lvl.
  destruct (h' !! m), (h !! m); cbn in Hs; try done; by injection Hs.
Qed.

Lemma same_shape_at_level h h' i l : same_shape h h' -> at_level h' i l = at_level h i l.
Proof.
  intros Hs. unfold at_level. induction l as [|n l IH]; [done|].
  rewrite !filter_cons, IH, (same_shape_lvl h h' n Hs). done.
Qed.

(** ** Splicing a new node into every level up to its own *)

Section Splice.
Variables (h : store) (hd : nat) (A B : list nat) (v : T) (lv : nat).
Variable upd : list (option nat).
Hypothesis Hnd : NoDup (hd :: A ++ B).
Hypothesis Hal : forall n, n ∈ hd :: A ++ B -> n < length h.
Hypothesis Hch : forall j, j <= lv ->
  follow h j (Some hd) (hd :: at_level h j (A ++ B)) = Some None.
Hypothesis Hupd : forall j, j <= lv -> upd !! j = Some (Some (pred_at h hd A j)).

Local Abbreviation nw := (length h).
Local Abbreviation h0 := (h ++ [new_node v lv]).
Local Abbreviation new_chain j := (hd :: at_level h j A ++ length h :: at_level h j B).

Lemma next_old j n : n < length h -> next h0 j n = next h j n.
Proof. intros Hn. unfold next. by rewrite lookup_app_l. Qed.

Lemma pred_at_old j : pred_at h hd A j < length h.
Proof.
  apply Hal. destruct (pred_at_elem h hd A j) as [->|H]; [by left|].
  right. apply elem_of_app. by left.
Qed.

Lemma old_split j :
  j <= lv ->
  exists X f,
    hd :: at_level h j A = X ++ [pred_at h hd A j] /\
    follow h j (Some hd) X = Some (Some (pred_at h hd A j)) /\
    next h j (pred_at h hd A j) = Some f /\
    follow h j f (at_level h j B) = Some None.
Proof.
  intros Hj. specialize (Hch j Hj). rewrite at_level_app, app_comm_cons in Hch.
  assert (exists X, hd :: at_level h j A = X ++ [pred_at h hd A j]) as [X HX].
  { destruct (pred_at_cases h hd A j) as [[-> ->]|[X ->]]; [by exists []|by exists (hd :: X)]. }
  rewrite HX, <- app_assoc in Hch.
  apply follow_app in Hch as (r & HfX & Hch). cbn [app] in Hch.
  pose proof (follow_head _ _ _ _ _ _ Hch) as ->.
  apply follow_cons in Hch as (f & Hf & HfB).
  by exists X, f.
Qed.

Lemma chainA_NoDup j : NoDup (hd :: at_level h j A).
Proof.
  apply NoDup_cons in Hnd as [Hhd Hnd']. apply NoDup_app in Hnd' as (HA & _ & _).
  apply NoDup_cons. split.
  - intros [_ ?]%elem_of_at_level. apply Hhd, elem_of_app. by left.
  - unfold at_level. by apply NoDup_filter.
Qed.

Lemma splice_loop count : forall k hk,
  k + count = lv + 1 ->
  same_shape h0 hk ->
  (forall j n, k <= j -> next hk j n = next h0 j n) ->
  (forall j, j < k -> follow hk j (Some hd) (new_chain j) = Some None) ->
  exists h',
    splice hk upd nw k count = Ret h' /\
    same_shape h0 h' /\
    (forall j, j <= lv -> follow h' j (Some hd) (new_chain j) = Some None) /\
    (forall j n, lv < j -> next h' j n = next h0 j n).
Proof.
  induction count as [|count IH]; intros k hk Hk Hsh Hun Hdone.
  - exists hk. split; [done|]. split; [done|]. split.
    + intros j Hj. apply Hdone. lia.
    + intros j n Hj. apply Hun. lia.
  - assert (k <= lv) as Hklv by lia.
    set (u := pred_at h hd A k).
    destruct (old_split k Hklv) as (X & f & HX & HfX & Hnu & HfB). fold u in HX, HfX, Hnu.
    pose proof (pred_at_old k) as Hu. fold u in Hu.
    assert (next hk k u = Some f) as Hnk by (rewrite Hun, next_old by lia; done).
    apply next_Some in Hnk as (und & Hund & Hfk).
    assert (h0 !! nw = Some (new_node v lv)) as Hnw0.
    { rewrite lookup_app_r by lia. by rewrite Nat.sub_diag. }
    destruct (same_shape_lookup _ _ _ _ Hsh Hnw0) as (nnd & Hnnd & _ & _ & Hnl).
    cbn [new_node forward] in Hnl. rewrite length_replicate in Hnl.
    cbn [splice]. unfold vec_at at 1. fold u in Hupd. rewrite (Hupd k Hklv). cbn [obind].
    fold u. cbn [deref]. rewrite Hund. cbn [obind]. unfold vec_at. rewrite Hfk. cbn [obind].
    rewrite (set_forward_ok hk nw k f nnd) by (done || lia). cbn [obind].
    set (h1 := put_slot hk nw k f).
    assert (h1 !! u = Some und) as Hund1 by (unfold h1; rewrite put_slot_lookup_ne by lia; done).
    assert (k < length (forward und)) as Hkl by (by apply lookup_lt_Some in Hfk).
    rewrite (set_forward_ok h1 u k (Some nw) und) by done. cbn [obind].
    set (h2 := put_slot h1 u k (Some nw)).
    assert (forall j n, j <> k -> next h2 j n = next hk j n) as Hother.
    { intros j n Hj. unfold h2, h1. rewrite !next_put_slot_ne by (by right). done. }
    assert (forall n, n <> u -> n < length h -> next h2 k n = next h k n) as Hsame.
    { intros n Hn Hlt. unfold h2, h1. rewrite !next_put_slot_ne by (left; lia).
      rewrite Hun, next_old by lia. done. }
    apply (IH (S k) h2); [lia| | |].
    + eapply same_shape_trans; [exact Hsh|].
      eapply same_shape_trans; apply same_shape_put_slot.
    + intros j n Hj. rewrite Hother by lia. apply Hun. lia.
    + intros j Hj. destruct (decide (j = k)) as [->|Hne].
      * rewrite app_comm_cons, HX, <- app_assoc. cbn [app].
        apply follow_app. exists (Some u). split.
        { rewrite <- HfX. apply follow_frame. intros n Hn. apply Hsame.
          - pose proof (chainA_NoDup k) as HN. rewrite HX in HN.
            apply NoDup_app in HN as (_ & HN & _). intros ->. apply (HN _ Hn). by left.
          - apply Hal. assert (n ∈ hd :: at_level h k A) as Hn'
              by (rewrite HX; apply elem_of_app; by left).
            apply elem_of_cons in Hn' as [->|[_ Hn']%elem_of_at_level]; [by left|].
            right. apply elem_of_app. by left. }
        apply follow_cons. exists (Some nw). split.
        { unfold h2. by apply next_put_slot_eq with (nd := und). }
        apply follow_cons. exists f. split.
        { unfold h2. rewrite next_put_slot_ne by (left; lia).
          unfold h1. apply next_put_slot_eq with (nd := nnd); [done|lia]. }
        rewrite <- HfB. apply follow_frame. intros n [_ Hn]%elem_of_at_level. apply Hsame.
        { intros ->. apply NoDup_cons in Hnd as [Hhd Hnd']. apply NoDup_app in Hnd' as (_ & Hdis & _).
          destruct (pred_at_elem h hd A k) as [Hp|Hp]; fold u in Hp.
          - rewrite Hp in Hn. apply Hhd. apply elem_of_app. by right.
          - by apply (Hdis u). }
        { apply Hal. right. apply elem_of_app. by right. }
      * rewrite <- (Hdone j) by lia. apply follow_frame. intros n _. by apply Hother.
Qed.

Lemma splice_spec :
  exists h',
    splice h0 upd nw 0 (lv + 1) = Ret h' /\
    same_shape h0 h' /\
    (forall j, j <= lv -> follow h' j (Some hd) (new_chain j) = Some None) /\
    (forall j n, lv < j -> next h' j n = next h0 j n).
Proof.
  apply splice_loop; [lia|apply same_shape_refl|done|]. intros j Hj. lia.
Qed.

End Splice.

(** ** Construction and clearing establish the invariant *)

Lemma new_inv (g : rng) : Inv (new T_default g) 0 [].
Proof.
  assert (forall i, i < MAX_LEVEL + 1 ->
            next [new_node T_default MAX_LEVEL] i 0 = Some None) as Hn.
  { intros i Hi. unfold next. cbn. by apply lookup_replicate_2. }
  split; cbn [new heap head_ size_ max_level_].
  - done.
  - eexists. split; [done|]. cbn. rewrite length_replicate. lia.
  - intros i m H. unfold next in H. cbn in H. by apply lookup_replicate_1 in H as [? _].
  - apply not_elem_of_nil.
  - intros [|n] nd Hn0 Hne; [done|]. by destruct n.
  - intros n Hn0. by apply elem_of_nil in Hn0.
  - intros n Hn0. by apply elem_of_nil in Hn0.
  - unfold MAX_LEVEL. lia.
  - constructor.
  - intros i Hi. apply follow_cons. exists None. split; [apply Hn; lia|done].
  - done.
Qed.

Lemma clear_inv sl hd L :
  Inv sl hd L -> exists sl', clear sl = Ret sl' /\ Inv sl' hd [].
Proof.
  intros I. destruct (inv_head_node _ _ _ _ _ I) as (nd & Hnd & Hl).
  unfold clear. rewrite (inv_head _ _ _ _ _ I). cbn [deref]. rewrite Hnd. cbn [obind].
  eexists. split; [done|].
  set (h' := <[hd := _]> (heap sl)).
  assert (hd < length (heap sl)) as Hlt by (by apply lookup_lt_Some in Hnd).
  assert (h' !! hd = Some (mkNode (value nd) (replicate MAX_LEVEL None) (level nd))) as Hhd
    by (by apply list_lookup_insert_eq).
  split; cbn [heap head_ size_ max_level_].
  - done.
  - eexists. split; [exact Hhd|]. cbn. by rewrite length_replicate.
  - intros i m H. unfold next in H. rewrite Hhd in H. cbn in H.
    by apply lookup_replicate_1 in H as [? _].
  - apply not_elem_of_nil.
  - intros n nd' Hn Hne. unfold h' in Hn. rewrite list_lookup_insert_ne in Hn by done.
    by apply (inv_nodes _ _ _ _ _ I n).
  - intros n Hn0. by apply elem_of_nil in Hn0.
  - intros n Hn0. by apply elem_of_nil in Hn0.
  - unfold MAX_LEVEL. lia.
  - constructor.
  - intros i Hi. apply follow_cons. exists None. split; [|done].
    unfold next. rewrite Hhd. cbn. by apply lookup_replicate_2.
  - done.
Qed.

(** ** Iteration *)

Lemma iter_incr_next h n q :
  next h 0 n = Some q -> iter_incr h (Some n) = Ret q.
Proof.
  intros (nd & Hnd & Hq)%next_Some. unfold iter_incr, deref. rewrite Hnd. cbn [obind].
  destruct (forward nd); by simplify_eq/=.
Qed.

Lemma walk_spec h l : forall fuel p,
  follow h 0 p l = Some None -> length l < fuel -> walk fuel h p = Ret l.
Proof.
  induction l as [|n l IH]; intros fuel p Hf Hfuel.
  - cbn in Hf. injection Hf as ->. destruct fuel; [lia|done].
  - pose proof (follow_head _ _ _ _ _ _ Hf) as ->.
    apply follow_cons in Hf as (r & Hr & Hf).
    destruct fuel as [|fuel]; [lia|]. cbn [walk].
    rewrite (iter_incr_next _ _ _ Hr). cbn [obind].
    rewrite (IH fuel r Hf) by (cbn in Hfuel; lia). done.
Qed.

Lemma collect_spec h l : forall fuel p,
  follow h 0 p l = Some None -> length l < fuel ->
  collect fuel h p = Ret (map (key h) l).
Proof.
  induction l as [|n l IH]; intros fuel p Hf Hfuel.
  - cbn in Hf. injection Hf as ->. destruct fuel; [lia|done].
  - pose proof (follow_head _ _ _ _ _ _ Hf) as ->.
    apply follow_cons in Hf as (r & Hr & Hf).
    destruct fuel as [|fuel]; [lia|]. cbn [collect].
    pose proof Hr as (nd & Hnd & _)%next_Some.
    cbn [iter_deref deref]. rewrite Hnd. cbn [obind].
    rewrite (iter_incr_next _ _ _ Hr). cbn [obind].
    rewrite (IH fuel r Hf) by (cbn in Hfuel; lia). cbn [obind map].
    by rewrite (keyof_lookup _ _ _ Hnd).
Qed.

Lemma inv_chain0 sl hd L :
  Inv sl hd L ->
  next (heap sl) 0 hd = Some (head L) /\ follow (heap sl) 0 (head L) L = Some None.
Proof.
  intros I. specialize (inv_chain _ _ _ _ _ I 0 ltac:(unfold MAX_LEVEL; lia)) as Hc.
  rewrite at_level_0 in Hc. apply follow_cons in Hc as (r & Hr & Hc).
  assert (r = head L) as ->; [|done].
  destruct L as [|n L]; cbn [head]; [cbn in Hc; congruence|]. by apply follow_head in Hc.
Qed.

Lemma begin_spec sl hd L : Inv sl hd L -> begin sl = Ret (head L).
Proof.
  intros I. destruct (inv_chain0 _ _ _ I) as [(nd & Hnd & Hq)%next_Some _].
  unfold begin. rewrite (inv_head _ _ _ _ _ I). cbn [deref]. rewrite Hnd. cbn [obind].
  unfold vec_at. by rewrite Hq.
Qed.

(** ** What a move leaves behind *)

Lemma advance_null fuel h (go : T -> bool) i : advance (S fuel) h go i None = Fault.
Proof. done. Qed.

Lemma descend_null h (go : T -> bool) i : descend h go i None = Fault.
Proof. by destruct i. Qed.

Lemma descend_update_null h (go : T -> bool) i upd : descend_update h go i None upd = Fault.
Proof. by destruct i. Qed.

(** C6 (failing input). The iterator's error is raised as claimed, but it is
    not the only way an operation fails: the object a move construction
    leaves behind is a reachable state, and on it every operation that starts
    at the sentinel dereferences the null [head_]. *)
Theorem moved_from_operations_fault sl k :
  let src := snd (move_construct sl) in
  (reachable comp_ T_default sl -> reachable comp_ T_default src) /\
  iter_deref (heap src) (end_ src) = Throw /\
  iter_arrow (heap src) default_iterator = Throw /\
  size src = 0 /\ empty src = true /\
  find comp_ src k = Fault /\
  count comp_ src k = Fault /\
  lower_bound comp_ src k = Fault /\
  upper_bound comp_ src k = Fault /\
  equal_range comp_ src k = Fault /\
  insert comp_ src k = Fault /\
  clear src = Fault.
Proof.
  cbn zeta. split; [apply reach_moved_from|].
  cbn [move_construct snd]. repeat split;
    unfold find, find_impl, count, find, find_impl, lower_bound, lower_bound_impl,
      upper_bound, upper_bound_impl, equal_range, lower_bound, lower_bound_impl,
      insert, insert_impl;
    cbn [heap head_ max_level_]; rewrite ?descend_null, ?descend_update_null; done.
Qed.

(** C7 (failing input). Move construction hands the store, size and level to
    the new object and resets the source's size and level, but the source's
    [head_] is null afterwards: begin() on it dereferences a null pointer
    instead of returning end(). *)
Theorem moved_from_begin_faults sl :
  let dst := fst (move_construct sl) in
  let src := snd (move_construct sl) in
  size dst = size sl /\ to_list dst = to_list sl /\
  size src = 0 /\ empty src = true /\
  head_ src = None /\ begin src = Fault.
Proof. cbn [move_construct fst snd]. by destruct sl. Qed.

(** Move assignment from another object leaves its source in the same state. *)
Lemma move_assign_source (this other dst src : @skip_list T) :
  move_assign this (another other) = Ret (dst, src) ->
  size dst = size other /\ to_list dst = to_list other /\
  size src = 0 /\ empty src = true /\ begin src = Fault.
Proof.
  cbn [move_assign]. destruct (clear this); cbn [obind]; [|done..].
  intros [= <- <-]. by destruct other.
Qed.

Lemma insert_all_reachable (ks : list T) : forall sl sl',
  reachable comp_ T_default sl -> insert_all comp_ sl ks = Ret sl' ->
  reachable comp_ T_default sl'.
Proof.
  induction ks as [|k ks IH]; intros sl sl' Hr Hall; cbn [insert_all] in Hall.
  - by injection Hall as <-.
  - destruct (insert comp_ sl k) as [[r sl1]| | |] eqn:Hi; cbn [obind] in Hall; [|done..].
    apply (IH sl1); [|done]. by eapply reach_insert.
Qed.

(** ** The reachable states are closed under the remaining operations *)

Lemma reachable_closed (a b : @skip_list T) :
  reachable comp_ T_default a -> reachable comp_ T_default b ->
  reachable comp_ T_default (fst (swap a b)) /\
  reachable comp_ T_default (snd (swap a b)) /\
  (forall rhs dst src, rhs = itself \/ rhs = another b ->
     move_assign a rhs = Ret (dst, src) ->
     reachable comp_ T_default dst /\ reachable comp_ T_default src) /\
  (forall g cp, copy_construct comp_ T_default g b = Ret cp ->
     reachable comp_ T_default cp) /\
  (forall g rhs cp, rhs = itself \/ rhs = another b ->
     copy_assign comp_ T_default g a rhs = Ret cp -> reachable comp_ T_default cp).
Proof.
  intros Ha Hb.
  assert (forall g cp, copy_construct comp_ T_default g b = Ret cp ->
            reachable comp_ T_default cp) as Hcopy.
  { intros g cp. unfold copy_construct.
    destruct (to_list b) as [xs| | |]; cbn [obind]; [|done..].
    apply insert_all_reachable, reach_new. }
  split; [done|]. split; [done|]. split; [|split; [done|]].
  - intros rhs dst src [->| ->]; cbn [move_assign].
    + by intros [= <- <-].
    + destruct (clear a); cbn [obind]; [|done..].
      intros [= <- <-]. split.
      * apply (reach_move_to _ _ b Hb).
      * apply (reach_moved_from _ _ b Hb).
  - intros g rhs cp [->| ->]; cbn [copy_assign].
    + by intros [= <-].
    + destruct (copy_construct comp_ T_default g b) as [t| | |] eqn:Ht; cbn [obind]; [|done..].
      intros [= <-]. cbn [swap fst]. by apply (Hcopy g).
Qed.

(** Every state reached with the member functions is one of the states
    reached by construction, insertion, clearing and move construction. *)
Lemma members_reachable (sl : @skip_list T) :
  reachable_by_members comp_ T_default sl -> reachable comp_ T_default sl.
Proof.
  induction 1 as [g|g init sl Hfl|sl v r sl' _ IH Hi|Args vt sl args r sl' _ IH He
                 |sl sl' _ IH Hc|a b _ IHa _ IHb|a b _ IHa _ IHb|g other cp _ IH Hcp
                 |sl _ IH|sl _ IH|g this other cp _ IHt _ IHo Hcp|g this cp _ IH Hcp
                 |this other dst src _ IHt _ IHo Hm|this other dst src _ IHt _ IHo Hm
                 |this dst src _ IH Hm].
  - apply reach_new.
  - eapply insert_all_reachable; [apply reach_new|exact Hfl].
  - by eapply reach_insert.
  - by eapply reach_insert.
  - by eapply reach_clear.
  - done.
  - done.
  - by apply (reachable_closed other other IH IH) in Hcp.
  - by apply reach_move_to.
  - by apply reach_moved_from.
  - destruct (reachable_closed this other IHt IHo) as (_ & _ & _ & _ & H).
    apply (H g (another other) cp); [by right|done].
  - cbn in Hcp. by injection Hcp as <-.
  - destruct (reachable_closed this other IHt IHo) as (_ & _ & H & _).
    apply (H (another other) dst src); [by right|done].
  - destruct (reachable_closed this other IHt IHo) as (_ & _ & H & _).
    apply (H (another other) dst src); [by right|done].
  - cbn in Hm. by injection Hm as <- _.
Qed.

(** C9 (failing input). The sentinel is built as a node of level MAX_LEVEL,
    so it starts with MAX_LEVEL + 1 slots; clear() then resizes it to
    MAX_LEVEL slots while its level stays MAX_LEVEL. *)
Theorem sentinel_slots (g : rng) :
  (exists nd, head_ (new T_default g) = Some 0 /\
     heap (new T_default g) !! 0 = Some nd /\
     level nd = MAX_LEVEL /\ length (forward nd) = MAX_LEVEL + 1) /\
  (exists sl' nd', clear (new T_default g) = Ret sl' /\ head_ sl' = Some 0 /\
     heap sl' !! 0 = Some nd' /\
     level nd' = MAX_LEVEL /\ length (forward nd') = MAX_LEVEL /\
     length (forward nd') <> level nd' + 1).
Proof.
  split.
  - eexists. split; [done|]. split; [done|]. split; [done|]. cbn. by rewrite length_replicate.
  - eexists _, _. split; [done|]. split; [done|]. split; [done|]. split; [done|].
    cbn. rewrite length_replicate. split; [done|]. lia.
Qed.

(** ** The comparator is a strict weak ordering *)

Section StrictWeakOrder.
Hypothesis comp_irrefl : forall a, comp_ a a = false.
Hypothesis comp_trans : forall a b c, comp_ a b = true -> comp_ b c = true -> comp_ a c = true.

Lemma sorted_NoDup h L : StronglySorted (before h) L -> NoDup L.
Proof.
  induction 1 as [|n L HS IH HF]; [constructor|].
  apply NoDup_cons. split; [|done]. intros Hn.
  rewrite Forall_forall in HF. specialize (HF n Hn). unfold key_lt in HF.
  by rewrite comp_irrefl in HF.
Qed.

(** A test that is downward closed along the order cuts a sorted chain in two. *)
Lemma sorted_split h L (go : T -> bool) :
  StronglySorted (before h) L ->
  (forall a b, comp_ a b = true -> go b = true -> go a = true) ->
  exists A B, L = A ++ B /\
    Forall (fun n => go (key h n) = true) A /\
    Forall (fun n => go (key h n) = false) B.
Proof.
  intros HS Hmono. induction HS as [|n L HS IH HF].
  - by exists [], [].
  - destruct (go (key h n)) eqn:Hgo.
    + destruct IH as (A & B & -> & HA & HB). exists (n :: A), B.
      split; [done|]. split; [by constructor|done].
    + exists [], (n :: L). split; [done|]. split; [constructor|].
      constructor; [done|]. rewrite Forall_forall in *. intros m Hm.
      destruct (go (key h m)) eqn:Hgm; [|done].
      specialize (HF m Hm). rewrite (Hmono _ _ HF Hgm) in Hgo. done.
Qed.

Lemma go_lower_mono key a b :
  comp_ a b = true -> comp_ b key = true -> comp_ a key = true.
Proof. apply comp_trans. Qed.

Lemma go_upper_mono key a b :
  comp_ a b = true -> negb (comp_ key b) = true -> negb (comp_ key a) = true.
Proof.
  intros Hab Hb. destruct (comp_ key a) eqn:Hka; [|done].
  by rewrite (comp_trans _ _ _ Hka Hab) in Hb.
Qed.

Lemma inv_NoDup sl hd L : Inv sl hd L -> NoDup (hd :: L).
Proof.
  intros I. apply NoDup_cons. split; [apply I|]. eapply sorted_NoDup, I.
Qed.

Lemma inv_alloc_all sl hd L : Inv sl hd L -> forall n, n ∈ hd :: L -> n < length (heap sl).
Proof.
  intros I n [->|Hn]%elem_of_cons; [|by apply I].
  destruct (inv_head_node _ _ _ _ _ I) as (nd & Hnd & _). by apply lookup_lt_Some in Hnd.
Qed.

(** Where the descent of any search ends, and what [forward[0]] then holds. *)
Lemma search_result sl hd L (go : T -> bool) :
  Inv sl hd L ->
  (forall a b, comp_ a b = true -> go b = true -> go a = true) ->
  exists A B, L = A ++ B /\
    Forall (fun n => go (key (heap sl) n) = true) A /\
    Forall (fun n => go (key (heap sl) n) = false) B /\
    descend (heap sl) go (max_level_ sl) (head_ sl) = Ret (Some (default hd (last A))) /\
    (exists upd,
       descend_update (heap sl) go (max_level_ sl) (head_ sl) (replicate MAX_LEVEL (head_ sl))
       = Ret (Some (default hd (last A)), upd) /\
       length upd = MAX_LEVEL /\
       forall j, j < MAX_LEVEL -> upd !! j = Some (Some (pred_at (heap sl) hd A j))) /\
    next (heap sl) 0 (default hd (last A)) = Some (head B).
Proof.
  intros I Hmono.
  destruct (sorted_split _ _ go (inv_sorted _ _ _ _ _ I) Hmono) as (A & B & -> & HA & HB).
  exists A, B. split; [done|]. split; [done|]. split; [done|].
  pose proof (inv_NoDup _ _ _ I) as [Hhd Hnd]%NoDup_cons.
  assert (forall n, n ∈ A ++ B -> n < length (heap sl)) as Hal by apply I.
  assert (forall j, j <= max_level_ sl ->
    follow (heap sl) j (Some hd) (hd :: at_level (heap sl) j (A ++ B)) = Some None) as Hch.
  { intros j Hj. apply I. pose proof (inv_max _ _ _ _ _ I). lia. }
  assert (forall j, max_level_ sl < j -> pred_at (heap sl) hd A j = hd) as Habove.
  { intros j Hj. apply pred_at_above. intros n Hn.
    pose proof (inv_levels _ _ _ _ _ I n ltac:(apply elem_of_app; by left)). lia. }
  rewrite (inv_head _ _ _ _ _ I). split; [|split].
  - pose proof (descend_spec (heap sl) hd A B go (max_level_ sl) Hnd Hal Hch HA HB) as Hd.
    by rewrite Habove, pred_at_0 in Hd by lia.
  - destruct (descend_update_spec (heap sl) hd A B go (max_level_ sl)
                (replicate MAX_LEVEL (Some hd))) as (upd & Hd & Hl & Hlo & Hhi); auto.
    { rewrite length_replicate. apply I. }
    rewrite Habove, pred_at_0 in Hd by lia.
    exists upd. split; [done|]. rewrite length_replicate in Hl. split; [done|].
    intros j Hj. destruct (decide (j <= max_level_ sl)) as [?|Hgt]; [by apply Hlo|].
    rewrite Hhi, Habove by lia. by apply lookup_replicate_2.
  - specialize (inv_chain _ _ _ _ _ I 0 ltac:(unfold MAX_LEVEL; lia)) as Hc.
    rewrite at_level_0 in Hc.
    assert (exists X, hd :: A = X ++ [default hd (last A)]) as [X HX].
    { destruct A as [|a A'] using rev_ind; [by exists []|].
      exists (hd :: A'). by rewrite last_snoc. }
    rewrite app_comm_cons, HX, <- app_assoc in Hc.
    apply follow_app in Hc as (r & _ & Hc). cbn [app] in Hc.
    pose proof (follow_head _ _ _ _ _ _ Hc) as ->.
    apply follow_cons in Hc as (f & Hf & HfB). rewrite Hf. f_equal.
    destruct B as [|b B']; cbn [head]; [cbn in HfB; congruence|].
    by apply follow_head in HfB.
Qed.

Lemma fill_head_id (upd : list (option nat)) hdp i count :
  i + count <= length upd ->
  (forall j, i <= j < i + count -> upd !! j = Some hdp) ->
  fill_head upd hdp i count = Ret upd.
Proof.
  revert i. induction count as [|count IH]; intros i Hlen Hj; [done|].
  cbn [fill_head]. unfold vec_set. rewrite decide_True by lia. cbn [obind].
  rewrite list_insert_id by (apply Hj; lia). apply IH; [lia|]. intros j ?. apply Hj. lia.
Qed.

Lemma matches_node h key n nd :
  h !! n = Some nd -> matches comp_ h key (Some n) = Ret (equiv_ comp_ key (value nd)).
Proof. intros Hn. unfold matches, deref. by rewrite Hn. Qed.

Lemma sorted_ext h h' l :
  (forall n, n ∈ l -> key h' n = key h n) ->
  StronglySorted (before h) l -> StronglySorted (before h') l.
Proof.
  intros Hk HS. induction HS as [|n l HS IH HF]; [constructor|].
  constructor.
  - apply IH. intros m Hm. apply Hk. by right.
  - rewrite Forall_forall in *. intros m Hm. unfold key_lt.
    rewrite (Hk n) by left. rewrite (Hk m) by (by right). by apply HF.
Qed.

Lemma at_level_ext h h' i l :
  (forall n, n ∈ l -> lvl h' n = lvl h n) -> at_level h' i l = at_level h i l.
Proof.
  intros Hl. unfold at_level. induction l as [|n l IH]; [done|].
  rewrite !filter_cons, IH by (intros m Hm; apply Hl; by right).
  by rewrite (Hl n) by left.
Qed.

(** The state after a successful splice satisfies the invariant again. *)
Lemma splice_inv sl hd A B v lv h' g' :
  Inv sl hd (A ++ B) ->
  Forall (fun n => comp_ (key (heap sl) n) v = true) A ->
  Forall (fun n => comp_ v (key (heap sl) n) = true) B ->
  lv < MAX_LEVEL ->
  same_shape (heap sl ++ [new_node v lv]) h' ->
  (forall j, j <= lv ->
     follow h' j (Some hd)
       (hd :: at_level (heap sl) j A ++ length (heap sl) :: at_level (heap sl) j B) = Some None) ->
  (forall j n, lv < j -> next h' j n = next (heap sl ++ [new_node v lv]) j n) ->
  Inv (mkSL h' (Some hd) (size_ sl + 1)
            (if decide (max_level_ sl < lv) then lv else max_level_ sl) g')
         hd (A ++ length (heap sl) :: B).
Proof.
  intros I HA HB Hlv Hsh Hnew Hold.
  set (h := heap sl) in *. set (nw := length h) in *.
  assert (forall n, n ∈ hd :: A ++ B -> n < nw) as Hal by (by apply inv_alloc_all).
  assert (forall n nd, h !! n = Some nd ->
            exists nd', h' !! n = Some nd' /\ value nd' = value nd /\ level nd' = level nd /\
                        length (forward nd') = length (forward nd)) as Holdn.
  { intros n nd Hn. apply (same_shape_lookup _ _ _ _ Hsh). by apply lookup_app_l_Some. }
  assert (exists nd', h' !! nw = Some nd' /\ value nd' = v /\ level nd' = lv /\
                      length (forward nd') = lv + 1) as (nnd & Hnnd & Hnv & Hnlv & Hnlen).
  { destruct (same_shape_lookup _ _ (length h) (new_node v lv) Hsh) as (nd' & ? & ? & ? & Hl).
    - rewrite lookup_app_r by lia. by rewrite Nat.sub_diag.
    - cbn in Hl. rewrite length_replicate in Hl. by exists nd'. }
  assert (forall n, n < nw -> key h' n = key h n) as Hkey.
  { intros n Hn. destruct (lookup_lt_is_Some_2 h n Hn) as [nd Hnd].
    destruct (Holdn _ _ Hnd) as (nd' & Hnd' & Hv & _).
    by rewrite (keyof_lookup _ _ _ Hnd), (keyof_lookup _ _ _ Hnd'). }
  assert (forall n, n < nw -> lvl h' n = lvl h n) as Hlvl.
  { intros n Hn. destruct (lookup_lt_is_Some_2 h n Hn) as [nd Hnd].
    destruct (Holdn _ _ Hnd) as (nd' & Hnd' & _ & Hl & _).
    by rewrite (lvl_lookup _ _ _ Hnd), (lvl_lookup _ _ _ Hnd'). }
  assert (forall j l, (forall n, n ∈ l -> n < nw) -> at_level h' j l = at_level h j l) as Hat.
  { intros j l Hl. apply at_level_ext. intros n Hn. apply Hlvl. by apply Hl. }
  assert (forall n, n ∈ A -> n < nw) as HalA
    by (intros n Hn; apply Hal; right; apply elem_of_app; by left).
  assert (forall n, n ∈ B -> n < nw) as HalB
    by (intros n Hn; apply Hal; right; apply elem_of_app; by right).
  assert (length h' = S nw) as Hlen'.
  { destruct Hsh as [-> _]. rewrite length_app. cbn. unfold nw. lia. }
  split; cbn [heap head_ size_ max_level_ gen_].
  - done.
  - destruct (inv_head_node _ _ _ _ _ I) as (nd & Hnd & Hl).
    destruct (Holdn _ _ Hnd) as (nd' & Hnd' & _ & _ & Hl'). exists nd'. split; [done|lia].
  - intros i m Hn. destruct (decide (i <= lv)) as [?|Hgt]; [lia|].
    rewrite Hold in Hn by lia. unfold next in Hn.
    rewrite lookup_app_l in Hn by (apply Hal; by left).
    by apply (inv_head_top _ _ _ _ _ I i m).
  - intros [Hn|[->|Hn]%elem_of_cons]%elem_of_app.
    + apply (inv_head_fresh _ _ _ _ _ I). apply elem_of_app. by left.
    + specialize (Hal nw ltac:(left)). lia.
    + apply (inv_head_fresh _ _ _ _ _ I). apply elem_of_app. by right.
  - intros n nd' Hn Hne. destruct (decide (n = nw)) as [->|Hnn].
    + rewrite Hnnd in Hn. injection Hn as <-. lia.
    + assert (n < nw) as Hlt by (apply lookup_lt_Some in Hn; lia).
      destruct (lookup_lt_is_Some_2 h n Hlt) as [nd Hnd].
      destruct (Holdn _ _ Hnd) as (nd2 & Hnd2 & _ & Hl2 & Hf2).
      rewrite Hn in Hnd2. injection Hnd2 as <-.
      destruct (inv_nodes _ _ _ _ _ I n nd Hnd Hne). lia.
  - intros n [Hn|[->|Hn]%elem_of_cons]%elem_of_app; [specialize (HalA n Hn)| |specialize (HalB n Hn)]; lia.
  - intros n Hn.
    assert (forall m, m ∈ A ++ B -> lvl h' m <=
              (if decide (max_level_ sl < lv) then lv else max_level_ sl)) as Hle.
    { intros m Hm. rewrite Hlvl by (apply Hal; by right).
      pose proof (inv_levels _ _ _ _ _ I m Hm) as Hm'. fold h in Hm'. case_decide; lia. }
    apply elem_of_app in Hn as [Hn|[->|Hn]%elem_of_cons].
    + apply Hle, elem_of_app. by left.
    + rewrite (lvl_lookup _ _ _ Hnnd). case_decide; lia.
    + apply Hle, elem_of_app. by right.
  - pose proof (inv_max _ _ _ _ _ I). case_decide; lia.
  - pose proof (inv_sorted _ _ _ _ _ I) as HS. fold h in HS.
    apply StronglySorted_app in HS as (HAB & HSA & HSB).
    assert (key h' nw = v) as Hkv by (by rewrite (keyof_lookup _ _ _ Hnnd)).
    apply StronglySorted_app_2.
    + intros a b Ha [->|Hb]%elem_of_cons; unfold key_lt.
      * rewrite Hkv, Hkey by auto. rewrite Forall_forall in HA. by apply HA.
      * rewrite !Hkey by auto. by apply HAB.
    + apply sorted_ext with (h := h); [|done]. intros n Hn. by apply Hkey, HalA.
    + constructor.
      * apply sorted_ext with (h := h); [|done]. intros n Hn. by apply Hkey, HalB.
      * rewrite Forall_forall in *. intros b Hb. unfold key_lt.
        rewrite Hkv, Hkey by auto. by apply HB.
  - intros i Hi. rewrite at_level_app.
    assert (at_level h' i (nw :: B) =
            (if decide (i <= lv) then [nw] else []) ++ at_level h i B) as ->.
    { unfold at_level at 1. rewrite filter_cons. fold (at_level h' i B).
      rewrite Hat by done. rewrite (lvl_lookup _ _ _ Hnnd), Hnlv. by case_decide. }
    rewrite Hat by done. case_decide as Hd.
    + by apply Hnew.
    + cbn [app]. rewrite <- at_level_app.
      rewrite <- (inv_chain _ _ _ _ _ I i Hi). fold h.
      apply follow_frame. intros n Hn. rewrite Hold by lia.
      unfold next. rewrite lookup_app_l; [done|].
      apply Hal. apply elem_of_cons in Hn as [->|[_ Hn]%elem_of_at_level]; [by left|by right].
  - rewrite (inv_size _ _ _ _ _ I), !length_app. cbn. lia.
Qed.

(** What [insert] does in a state satisfying the invariant: the chain splits
    at the key; an equivalent head of the second part is returned untouched,
    otherwise a fresh node is spliced between the two parts. *)
Lemma insert_spec sl hd L v :
  Inv sl hd L ->
  exists A B, L = A ++ B /\
    Forall (fun n => comp_ (key (heap sl) n) v = true) A /\
    Forall (fun n => comp_ (key (heap sl) n) v = false) B /\
    ((exists b B', B = b :: B' /\ equiv_ comp_ v (key (heap sl) b) = true /\
        insert comp_ sl v = Ret ((Some b, false), sl))
     \/
     (Forall (fun n => comp_ v (key (heap sl) n) = true) B /\
      exists lv g' h',
        random_level (gen_ sl) = Ret (lv, g') /\ lv < MAX_LEVEL /\
        same_shape (heap sl ++ [new_node v lv]) h' /\
        insert comp_ sl v
        = Ret ((Some (length (heap sl)), true),
               mkSL h' (Some hd) (size_ sl + 1)
                 (if decide (max_level_ sl < lv) then lv else max_level_ sl) g') /\
        Inv (mkSL h' (Some hd) (size_ sl + 1)
                 (if decide (max_level_ sl < lv) then lv else max_level_ sl) g')
               hd (A ++ length (heap sl) :: B))).
Proof.
  intros I.
  destruct (search_result sl hd L (fun x => comp_ x v) I (go_lower_mono v))
    as (A & B & -> & HA & HB & _ & (upd & Hdu & Hul & Hupd) & Hnx).
  exists A, B. split; [done|]. split; [done|]. split; [done|].
  set (u := default hd (last A)) in *.
  apply next_Some in Hnx as (und & Hund & Hu0).
  assert (insert comp_ sl v =
    do m <- matches comp_ (heap sl) v (head B);
    if m then Ret ((head B, false), sl)
    else
      do (new_level, g') <- random_level (gen_ sl);
      do update' <- (if decide (max_level_ sl < new_level)
                     then fill_head upd (head_ sl) (max_level_ sl + 1) (new_level - max_level_ sl)
                     else Ret upd);
      do h' <- splice (heap sl ++ [new_node v new_level]) update' (length (heap sl)) 0
                 (new_level + 1);
      Ret ((Some (length (heap sl)), true),
           mkSL h' (head_ sl) (size_ sl + 1)
             (if decide (max_level_ sl < new_level) then new_level else max_level_ sl) g'))
    as Hrun.
  { unfold insert, insert_impl. rewrite Hdu. cbn [obind deref]. rewrite Hund. cbn [obind].
    unfold vec_at. rewrite Hu0. done. }
  assert (Forall (fun n => comp_ v (key (heap sl) n) = true) B ->
    exists lv g' h',
      random_level (gen_ sl) = Ret (lv, g') /\ lv < MAX_LEVEL /\
      same_shape (heap sl ++ [new_node v lv]) h' /\
      (do (new_level, g') <- random_level (gen_ sl);
       do update' <- (if decide (max_level_ sl < new_level)
                      then fill_head upd (head_ sl) (max_level_ sl + 1) (new_level - max_level_ sl)
                      else Ret upd);
       do h' <- splice (heap sl ++ [new_node v new_level]) update' (length (heap sl)) 0
                  (new_level + 1);
       Ret ((Some (length (heap sl)), true),
            mkSL h' (head_ sl) (size_ sl + 1)
              (if decide (max_level_ sl < new_level) then new_level else max_level_ sl) g'))
      = Ret ((Some (length (heap sl)), true),
             mkSL h' (Some hd) (size_ sl + 1)
               (if decide (max_level_ sl < lv) then lv else max_level_ sl) g') /\
      Inv (mkSL h' (Some hd) (size_ sl + 1)
               (if decide (max_level_ sl < lv) then lv else max_level_ sl) g')
             hd (A ++ length (heap sl) :: B)) as Hnew.
  { intros HB'.
    destruct (random_level_total (gen_ sl)) as (lv & g' & Hr & Hlv).
    assert (lv < MAX_LEVEL) as Hlv' by (unfold MAX_LEVEL in *; lia).
    rewrite Hr. cbn [obind]. rewrite (inv_head _ _ _ _ _ I).
    assert ((if decide (max_level_ sl < lv)
             then fill_head upd (Some hd) (max_level_ sl + 1) (lv - max_level_ sl)
             else Ret upd) = Ret upd) as ->.
    { case_decide; [|done]. apply fill_head_id; [lia|]. intros j Hj.
      rewrite Hupd by lia. do 2 f_equal. apply pred_at_above. intros n Hn.
      pose proof (inv_levels _ _ _ _ _ I n ltac:(apply elem_of_app; by left)). lia. }
    cbn [obind].
    destruct (splice_spec (heap sl) hd A B v lv upd) as (h' & Hsp & Hsh & Hch' & Hold).
    - by apply (inv_NoDup sl).
    - by apply inv_alloc_all.
    - intros j Hj. apply I. lia.
    - intros j Hj. apply Hupd. lia.
    - rewrite Hsp. cbn [obind]. exists lv, g', h'. split; [done|]. split; [done|].
      split; [done|]. split; [done|]. by apply (splice_inv sl hd A B v lv h' g'). }
  rewrite Hrun. destruct B as [|b B']; cbn [head matches obind].
  - right. split; [constructor|]. destruct (Hnew ltac:(constructor)) as (lv & g' & h' & ? & ? & ? & ? & ?).
    by exists lv, g', h'.
  - assert (is_Some (heap sl !! b)) as [ndb Hndb].
    { apply lookup_lt_is_Some_2. apply (inv_alloc _ _ _ _ _ I). apply elem_of_app. right. by left. }
    cbn [deref]. rewrite Hndb. cbn [obind].
    fold (equiv_ comp_ v (value ndb)).
    destruct (equiv_ comp_ v (value ndb)) eqn:Heq.
    + left. exists b, B'. by rewrite (keyof_lookup _ _ _ Hndb).
    + right.
      assert (Forall (fun n => comp_ v (key (heap sl) n) = true) (b :: B')) as HB'.
      { assert (comp_ v (key (heap sl) b) = true) as Hvb.
        { apply Forall_cons in HB as [Hb _]. rewrite (keyof_lookup _ _ _ Hndb) in *.
          unfold equiv_ in Heq. rewrite Hb in Heq. by destruct (comp_ v (value ndb)). }
        constructor; [done|].
        pose proof (inv_sorted _ _ _ _ _ I) as HS. apply StronglySorted_app_1_r in HS.
        apply StronglySorted_inv in HS as [_ HS]. rewrite Forall_forall in *.
        intros n Hn. eapply comp_trans; [exact Hvb|]. by apply HS. }
      split; [done|]. destruct (Hnew HB') as (lv & g' & h' & ? & ? & ? & ? & ?).
      by exists lv, g', h'.
Qed.

Lemma inv_fuel sl hd L : Inv sl hd L -> length L < fuel_of (heap sl).
Proof.
  intros I. unfold fuel_of.
  pose proof (length_le_store (heap sl) L) as Hle.
  pose proof (inv_NoDup _ _ _ I) as [_ Hnd]%NoDup_cons.
  specialize (Hle Hnd (inv_alloc _ _ _ _ _ I)). lia.
Qed.

Lemma positions_spec sl hd L : Inv sl hd L -> positions sl = Ret L.
Proof.
  intros I. unfold positions. rewrite (begin_spec _ _ _ I). cbn [obind].
  apply walk_spec; [apply (inv_chain0 _ _ _ I)|by eapply inv_fuel].
Qed.

Lemma to_list_spec sl hd L :
  Inv sl hd L -> to_list sl = Ret (map (key (heap sl)) L).
Proof.
  intros I. unfold to_list. rewrite (begin_spec _ _ _ I). cbn [obind].
  apply collect_spec; [apply (inv_chain0 _ _ _ I)|by eapply inv_fuel].
Qed.

(** A reachable state either satisfies the invariant or is what a move left behind. *)
Lemma reachable_inv sl :
  reachable comp_ T_default sl ->
  (exists hd L, Inv sl hd L) \/
  (head_ sl = None /\ size_ sl = 0 /\ max_level_ sl = 0).
Proof.
  induction 1 as [g|sl v r sl' Hr IH Hi|sl sl' Hr IH Hc|sl Hr IH|sl Hr IH].
  - left. exists 0, []. apply new_inv.
  - destruct IH as [(hd & L & I)|(Hh & _)].
    + left. destruct (insert_spec sl hd L v I) as (A & B & -> & _ & _ & [Hdup|Hnew]).
      * destruct Hdup as (b & B' & -> & _ & Hins). rewrite Hins in Hi.
        injection Hi as _ <-. by exists hd, (A ++ b :: B').
      * destruct Hnew as (_ & lv & g' & h' & _ & _ & _ & Hins & I').
        rewrite Hins in Hi. injection Hi as _ <-. by exists hd, (A ++ length (heap sl) :: B).
    + unfold insert, insert_impl in Hi. rewrite Hh in Hi.
      destruct (max_level_ sl); cbn in Hi; discriminate.
  - destruct IH as [(hd & L & I)|(Hh & _)].
    + left. destruct (clear_inv sl hd L I) as (sl2 & Hc2 & I2).
      rewrite Hc2 in Hc. injection Hc as <-. by exists hd, [].
    + unfold clear in Hc. by rewrite Hh in Hc.
  - destruct IH as [(hd & L & I)|(Hh & Hs & Hm)].
    + left. exists hd, L. by destruct sl.
    + right. by cbn.
  - right. by cbn.
Qed.

Lemma new_node_keys h v lv h' :
  same_shape (h ++ [new_node v lv]) h' ->
  (forall n, n < length h -> key h' n = key h n) /\ key h' (length h) = v.
Proof.
  intros Hsh. split.
  - intros n Hn. rewrite (same_shape_keyof _ _ n Hsh). unfold keyof.
    by rewrite lookup_app_l.
  - rewrite (same_shape_keyof _ _ _ Hsh). unfold keyof.
    rewrite lookup_app_r by lia. by rewrite Nat.sub_diag.
Qed.

Lemma sorted_keys h L :
  StronglySorted (before h) L ->
  StronglySorted (fun a b => comp_ a b = true) (map (key h) L).
Proof.
  induction 1 as [|n L HS IH HF]; [constructor|]. cbn [map]. constructor; [done|].
  apply Forall_forall. intros x (m & -> & Hm)%list_elem_of_fmap.
  rewrite Forall_forall in HF. by apply HF.
Qed.

Lemma existsb_equiv_true k (acc : list T) x :
  x ∈ acc -> equiv_ comp_ k x = true -> existsb (equiv_ comp_ k) acc = true.
Proof. intros Hx He. apply existsb_exists. exists x. by rewrite <- list_elem_of_In. Qed.

Lemma existsb_equiv_false k (acc : list T) :
  (forall x, x ∈ acc -> equiv_ comp_ k x = false) -> existsb (equiv_ comp_ k) acc = false.
Proof.
  intros H. destruct (existsb _ acc) eqn:E; [|done].
  apply existsb_exists in E as (x & Hx%list_elem_of_In & He). by rewrite H in He.
Qed.

(** One insertion against the list of distinct keys seen so far. *)
Lemma insert_distinct sl hd L v acc :
  Inv sl hd L -> map (key (heap sl)) L ≡ₚ acc ->
  exists r sl' L',
    insert comp_ sl v = Ret (r, sl') /\ Inv sl' hd L' /\
    map (key (heap sl')) L' ≡ₚ distinct_step comp_ acc v.
Proof.
  intros I Hacc.
  destruct (insert_spec sl hd L v I) as (A & B & -> & HA & HB & [Hdup|Hnew]).
  - destruct Hdup as (b & B' & -> & Heq & Hins).
    exists (Some b, false), sl, (A ++ b :: B'). split; [done|]. split; [done|].
    unfold distinct_step. rewrite (existsb_equiv_true v acc (key (heap sl) b)); [done| |done].
    rewrite <- Hacc. apply list_elem_of_fmap. exists b. split; [done|].
    apply elem_of_app. right. by left.
  - destruct Hnew as (HB' & lv & g' & h' & _ & _ & Hsh & Hins & I').
    eexists _, _, _. split; [exact Hins|]. split; [exact I'|]. cbn [heap].
    destruct (new_node_keys _ _ _ _ Hsh) as [Hold Hnw].
    unfold distinct_step. rewrite existsb_equiv_false.
    + rewrite map_app. cbn [map]. rewrite Hnw.
      rewrite <- Hacc, map_app.
      assert (forall l, (forall n, n ∈ l -> n < length (heap sl)) ->
                map (key h') l = map (key (heap sl)) l) as Hm.
      { intros l Hl. apply map_ext_in. intros n Hn%list_elem_of_In. apply Hold. by apply Hl. }
      rewrite !Hm.
      * rewrite <- app_assoc. apply Permutation_app_head. apply Permutation_cons_append.
      * intros n Hn. apply (inv_alloc _ _ _ _ _ I). apply elem_of_app. by right.
      * intros n Hn. apply (inv_alloc _ _ _ _ _ I). apply elem_of_app. by left.
    + intros x Hx. rewrite <- Hacc in Hx.
      apply list_elem_of_fmap in Hx as (n & -> & [Hn|Hn]%elem_of_app); unfold equiv_.
      * rewrite Forall_forall in HA. rewrite (HA n Hn). apply andb_false_r.
      * rewrite Forall_forall in HB'. by rewrite (HB' n Hn).
Qed.

Lemma insert_all_distinct ks : forall sl hd L acc,
  Inv sl hd L -> map (key (heap sl)) L ≡ₚ acc ->
  exists sl' L',
    insert_all comp_ sl ks = Ret sl' /\ Inv sl' hd L' /\
    map (key (heap sl')) L' ≡ₚ foldl (distinct_step comp_) acc ks.
Proof.
  induction ks as [|k ks IH]; intros sl hd L acc I Hacc.
  - by exists sl, L.
  - destruct (insert_distinct sl hd L k acc I Hacc) as (r & sl1 & L1 & Hins & I1 & Hacc1).
    destruct (IH sl1 hd L1 _ I1 Hacc1) as (sl' & L' & Hall & I' & Hacc').
    exists sl', L'. split; [|done]. cbn [insert_all]. rewrite Hins. done.
Qed.

(** A sequence of insert and emplace calls inserts the keys the calls present. *)
Lemma run_insertions_insert_all (cs : list (insertion (T:=T))) : forall sl,
  run_insertions comp_ sl cs = insert_all comp_ sl (map inserted_key cs).
Proof.
  induction cs as [|c cs IH]; intros sl; [done|].
  cbn [run_insertions map insert_all].
  assert (run_insertion comp_ sl c = insert comp_ sl (inserted_key c)) as ->
    by (by destruct c).
  destruct (insert comp_ sl (inserted_key c)) as [[r sl1]| | |]; cbn [obind]; [|done..].
  apply IH.
Qed.

(** C1. Inserting any finite sequence of keys into an initially empty
    skip_list, by the initializer-list constructor or by a sequence of
    insert and emplace calls in any mixture, succeeds; iterating from
    begin() to end() then visits the distinct keys of the sequence (one per
    class of keys equivalent under the comparator), in strictly ascending
    comparator order, and size() is the number of those distinct keys. *)
Theorem insert_sequence_sorted_distinct (g : rng) :
  (forall ks : list T,
     exists sl xs,
       from_list comp_ T_default g ks = Ret sl /\
       to_list sl = Ret xs /\
       StronglySorted (fun a b => comp_ a b = true) xs /\
       xs ≡ₚ distinct comp_ ks /\
       size sl = length (distinct comp_ ks)) /\
  (forall cs : list insertion,
     exists sl xs,
       run_insertions comp_ (new T_default g) cs = Ret sl /\
       to_list sl = Ret xs /\
       StronglySorted (fun a b => comp_ a b = true) xs /\
       xs ≡ₚ distinct comp_ (map inserted_key cs) /\
       size sl = length (distinct comp_ (map inserted_key cs))).
Proof.
  assert (forall ks : list T,
            exists sl xs,
              insert_all comp_ (new T_default g) ks = Ret sl /\
              to_list sl = Ret xs /\
              StronglySorted (fun a b => comp_ a b = true) xs /\
              xs ≡ₚ distinct comp_ ks /\
              size sl = length (distinct comp_ ks)) as Hall.
  { intros ks.
    destruct (insert_all_distinct ks (new T_default g) 0 [] [] (new_inv g) ltac:(done))
      as (sl & L & Hall & I & Hperm).
    exists sl, (map (key (heap sl)) L). split; [done|].
    split; [by apply (to_list_spec sl 0)|].
    split; [apply sorted_keys, I|]. split; [done|].
    unfold size. rewrite (inv_size _ _ _ _ _ I).
    apply Permutation_length in Hperm. by rewrite length_map in Hperm. }
  split.
  - intros ks. apply Hall.
  - intros cs. rewrite run_insertions_insert_all. apply Hall.
Qed.

(** ** Copying *)

Lemma distinct_fold_sorted (xs : list T) : forall acc,
  (forall a x, a ∈ acc -> x ∈ xs -> comp_ a x = true) ->
  StronglySorted (fun a b => comp_ a b = true) xs ->
  foldl (distinct_step comp_) acc xs = acc ++ xs.
Proof.
  induction xs as [|x xs IH]; intros acc Hacc HS; cbn [foldl]; [by rewrite app_nil_r|].
  apply StronglySorted_inv in HS as [HS Hx]. rewrite Forall_forall in Hx.
  unfold distinct_step. rewrite existsb_equiv_false.
  - rewrite IH; [by rewrite <- app_assoc| |done].
    intros a x' [Ha|Ha]%elem_of_app Hx'.
    + apply Hacc; [done|by right].
    + apply list_elem_of_singleton in Ha as ->. by apply Hx.
  - intros a Ha. unfold equiv_. rewrite (Hacc a x Ha ltac:(left)). apply andb_false_r.
Qed.

(** The copy constructor re-inserts the source's elements into a fresh
    container: the copy has the source's iteration sequence and size. *)
Theorem copy_construct_spec (g : rng) other xs :
  reachable comp_ T_default other -> to_list other = Ret xs ->
  exists cp, copy_construct comp_ T_default g other = Ret cp /\
             to_list cp = Ret xs /\ size cp = size other.
Proof.
  intros Hr Hxs. destruct (reachable_inv other Hr) as [(hd & L & I)|(Hh & _)].
  2:{ unfold to_list, begin in Hxs. by rewrite Hh in Hxs. }
  pose proof Hxs as Hxs'. rewrite (to_list_spec _ _ _ I) in Hxs'. injection Hxs' as Hxs'.
  assert (StronglySorted (fun a b => comp_ a b = true) xs) as HS
    by (rewrite <- Hxs'; apply sorted_keys, I).
  destruct (insert_all_distinct xs (new T_default g) 0 [] [] (new_inv g) ltac:(done))
    as (cp & Lc & Hall & Ic & Hperm).
  fold (distinct comp_ xs) in Hperm. unfold distinct in Hperm.
  rewrite (distinct_fold_sorted xs []) in Hperm; [|by intros ? ? ?%elem_of_nil|done].
  cbn [app] in Hperm.
  assert (map (key (heap cp)) Lc = xs) as Heq.
  { apply (StronglySorted_unique_strong (fun a b => comp_ a b = true)); [|apply sorted_keys, Ic|done..].
    intros a b _ _ Hab Hba. pose proof (comp_trans _ _ _ Hab Hba) as H.
    by rewrite comp_irrefl in H. }
  exists cp. unfold copy_construct. rewrite Hxs. cbn [obind]. split; [exact Hall|].
  split; [by rewrite (to_list_spec _ _ _ Ic), Heq|].
  unfold size. rewrite (inv_size _ _ _ _ _ Ic), (inv_size _ _ _ _ _ I).
  by rewrite <- (length_map (key (heap cp))), Heq, <- Hxs', length_map.
Qed.

(** ** Liveness and the level chains *)

Lemma follow_first h i m Y : follow h i (Some m) Y = Some None -> m ∈ Y.
Proof.
  destruct Y as [|y Y]; [cbn; congruence|]. intros [= ->]%follow_head. by left.
Qed.

Lemma chain_successor h i hd l n m :
  follow h i (Some hd) (hd :: l) = Some None ->
  n ∈ hd :: l -> next h i n = Some (Some m) -> m ∈ l.
Proof.
  intros Hf Hn Hnx. apply list_elem_of_split in Hn as (X & Y & HXY).
  rewrite HXY in Hf. apply follow_app in Hf as (r & _ & Hf).
  pose proof (follow_head _ _ _ _ _ _ Hf) as ->.
  apply follow_cons in Hf as (r & Hr & Hf). rewrite Hnx in Hr. injection Hr as <-.
  apply follow_first in Hf.
  assert (m ∈ hd :: l) as Hm by (rewrite HXY; apply elem_of_app; right; by right).
  apply elem_of_cons in Hm as [->|Hm]; [|done].
  destruct X as [|x X]; cbn in HXY.
  - injection HXY as <- ->. done.
  - injection HXY as <- ->. apply elem_of_app. right. by right.
Qed.

Lemma live_in_chain sl hd L : Inv sl hd L -> forall n, live sl n -> n ∈ L.
Proof.
  intros I n Hlive. induction Hlive as [i hd0 m Hh Hnx|i n m Hlive IH Hnx].
  - rewrite (inv_head _ _ _ _ _ I) in Hh. injection Hh as <-.
    pose proof (inv_head_top _ _ _ _ _ I i m Hnx) as Hi.
    pose proof (chain_successor _ _ _ _ hd m (inv_chain _ _ _ _ _ I i Hi) ltac:(left) Hnx) as Hm.
    by apply elem_of_at_level in Hm as [_ ?].
  - pose proof Hnx as (nd & Hnd & Hq)%next_Some.
    assert (n <> hd) as Hne by (intros ->; by apply (inv_head_fresh _ _ _ _ _ I)).
    destruct (inv_nodes _ _ _ _ _ I n nd Hnd Hne) as [Hlen Hlv].
    apply lookup_lt_Some in Hq.
    assert (i < MAX_LEVEL) as Hi by lia.
    assert (n ∈ at_level (heap sl) i L) as Hn.
    { apply elem_of_at_level. split; [|done]. rewrite (lvl_lookup _ _ _ Hnd). lia. }
    pose proof (chain_successor _ _ _ _ n m (inv_chain _ _ _ _ _ I i Hi)
                  ltac:(by right) Hnx) as Hm.
    by apply elem_of_at_level in Hm as [_ ?].
Qed.

Lemma follow_live sl l : forall p,
  follow (heap sl) 0 p l = Some None ->
  (forall m, p = Some m -> live sl m) ->
  forall n, n ∈ l -> live sl n.
Proof.
  induction l as [|x l IH]; intros p Hf Hp n Hn; [by apply elem_of_nil in Hn|].
  pose proof (follow_head _ _ _ _ _ _ Hf) as ->.
  apply follow_cons in Hf as (r & Hr & Hf).
  apply elem_of_cons in Hn as [->|Hn]; [by apply Hp|].
  apply (IH r Hf); [|done]. intros m ->. eapply live_step; [by apply Hp|exact Hr].
Qed.

Lemma chain_live sl hd L : Inv sl hd L -> forall n, n ∈ L -> live sl n.
Proof.
  intros I. destruct (inv_chain0 _ _ _ I) as [Hh Hf].
  apply (follow_live sl L _ Hf). intros m Hm. rewrite Hm in Hh.
  eapply live_head; [apply I|exact Hh].
Qed.

Lemma live_positions sl L n :
  reachable comp_ T_default sl -> positions sl = Ret L -> (live sl n <-> n ∈ L).
Proof.
  intros Hr Hpos. destruct (reachable_inv sl Hr) as [(hd & L' & I)|(Hh & _)].
  2:{ unfold positions, begin in Hpos. by rewrite Hh in Hpos. }
  rewrite (positions_spec _ _ _ I) in Hpos. injection Hpos as ->.
  split; [by apply (live_in_chain sl hd)|by apply (chain_live sl hd)].
Qed.

Lemma sorted_at_level h i L :
  StronglySorted (before h) L -> StronglySorted (before h) (at_level h i L).
Proof.
  induction 1 as [|n L HS IH HF]; [constructor|]. unfold at_level. rewrite filter_cons.
  case_decide; [|done]. constructor; [done|]. by apply (Forall_at_level _ h i L).
Qed.

Lemma sorted_total h L a b :
  StronglySorted (before h) L -> a ∈ L -> b ∈ L -> a = b \/ before h a b \/ before h b a.
Proof.
  induction 1 as [|n L HS IH HF]; intros Ha Hb; [by apply elem_of_nil in Ha|].
  rewrite Forall_forall in HF.
  apply elem_of_cons in Ha as [->|Ha]; apply elem_of_cons in Hb as [->|Hb]; auto.
Qed.

Lemma no_equal_nodes h L a b :
  StronglySorted (before h) L -> a ∈ L -> b ∈ L ->
  equiv_ comp_ (key h a) (key h b) = true -> a = b.
Proof.
  intros HS Ha Hb He. unfold equiv_ in He.
  destruct (sorted_total h L a b HS Ha Hb) as [?|[H|H]]; [done|..];
    unfold key_lt in H; rewrite H in He; cbn in He;
    [done|by rewrite andb_false_r in He].
Qed.

(** C2 (as amended). In every state reached with the container's member
    functions (constructors, insert, emplace, clear, swap, copy and move
    construction and assignment), no node having been modified through what
    a non-const iterator returns, and which owns a sentinel: the index-0
    chain from the sentinel visits every live node exactly once, in strictly
    ascending key order, no two of its nodes comparing equal; and for every
    level i <= max_level_ the index-i chain from the sentinel is strictly
    increasing and a subsequence of the index-0 chain. *)
Theorem level_chains_sorted sl hd :
  reachable_by_members comp_ T_default sl -> head_ sl = Some hd ->
  exists L,
    is_chain sl 0 L /\ NoDup L /\ StronglySorted (before (heap sl)) L /\
    (forall n, live sl n <-> n ∈ L) /\
    (forall a b, a ∈ L -> b ∈ L ->
       equiv_ comp_ (key (heap sl) a) (key (heap sl) b) = true -> a = b) /\
    forall i, i <= max_level_ sl ->
      exists Li, is_chain sl i Li /\ StronglySorted (before (heap sl)) Li /\
                 Li `sublist_of` L.
Proof.
  intros Hr%members_reachable Hh.
  destruct (reachable_inv sl Hr) as [(hd' & L & I)|(Hn & _)]; [|congruence].
  assert (hd' = hd) as -> by (rewrite (inv_head _ _ _ _ _ I) in Hh; congruence).
  exists L. split; [|split; [|split; [|split; [|split]]]].
  - exists hd. split; [done|]. rewrite <- (at_level_0 (heap sl) L) at 1. apply I. unfold MAX_LEVEL. lia.
  - eapply sorted_NoDup, I.
  - apply I.
  - intros n. split; [by apply (live_in_chain sl hd)|by apply (chain_live sl hd)].
  - intros a b. apply no_equal_nodes, I.
  - intros i Hi. exists (at_level (heap sl) i L). split; [|split].
    + exists hd. split; [done|]. apply I. pose proof (inv_max _ _ _ _ _ I). lia.
    + apply sorted_at_level, I.
    + unfold at_level. apply sublist_filter.
Qed.

(** ** Queries on a state that owns a sentinel *)

Lemma first_such_none {X} (f : X -> bool) (l : list X) :
  Forall (fun x => f x = false) l -> first_such f l = None.
Proof. induction 1 as [|x l Hx _ IH]; cbn [first_such]; [done|by rewrite Hx]. Qed.

Lemma bound_run sl hd L (go : T -> bool) :
  Inv sl hd L ->
  (forall a b, comp_ a b = true -> go b = true -> go a = true) ->
  exists A B, L = A ++ B /\
    Forall (fun n => go (key (heap sl) n) = true) A /\
    Forall (fun n => go (key (heap sl) n) = false) B /\
    (do c <- descend (heap sl) go (max_level_ sl) (head_ sl);
     do nd <- deref (heap sl) c;
     vec_at (forward nd) 0) = Ret (head B).
Proof.
  intros I Hmono.
  destruct (search_result sl hd L go I Hmono) as (A & B & -> & HA & HB & Hd & _ & Hnx).
  exists A, B. split; [done|]. split; [done|]. split; [done|].
  rewrite Hd. cbn [obind]. apply next_Some in Hnx as (nd & Hnd & Hq).
  cbn [deref]. rewrite Hnd. cbn [obind]. unfold vec_at. by rewrite Hq.
Qed.

Lemma first_such_hit {X} (f : X -> bool) (A B : list X) b :
  Forall (fun x => f x = false) A -> f b = true -> first_such f (A ++ b :: B) = Some b.
Proof.
  intros HA Hb. induction HA as [|a A Ha _ IH]; cbn [app first_such]; [by rewrite Hb|].
  by rewrite Ha.
Qed.

(** [find k] returns the position of the element equivalent to [k], or end()
    when there is none. *)
Lemma find_spec sl hd L k :
  Inv sl hd L ->
  find comp_ sl k
  = Ret (first_such (fun n => equiv_ comp_ k (key (heap sl) n)) L).
Proof.
  intros I.
  destruct (search_result sl hd L (fun x => comp_ x k) I (go_lower_mono k))
    as (A & B & -> & HA & HB & Hd & _ & Hnx).
  apply next_Some in Hnx as (und & Hund & Hu0).
  unfold find, find_impl. rewrite Hd. cbn [obind deref]. rewrite Hund. cbn [obind].
  unfold vec_at. rewrite Hu0. cbn [obind].
  assert (Forall (fun n => equiv_ comp_ k (key (heap sl) n) = false) A) as HA'.
  { eapply Forall_impl; [exact HA|]. cbn. intros n Hn. unfold equiv_. rewrite Hn.
    apply andb_false_r. }
  destruct B as [|b B']; cbn [head matches obind].
  - rewrite app_nil_r. by rewrite first_such_none.
  - assert (is_Some (heap sl !! b)) as [ndb Hndb].
    { apply lookup_lt_is_Some_2. apply (inv_alloc _ _ _ _ _ I). apply elem_of_app. right. by left. }
    cbn [deref]. rewrite Hndb. cbn [obind]. fold (equiv_ comp_ k (value ndb)).
    apply Forall_cons in HB as [Hb HB]. rewrite (keyof_lookup _ _ _ Hndb) in Hb.
    destruct (equiv_ comp_ k (value ndb)) eqn:Heq.
    + f_equal. symmetry. apply first_such_hit; [done|].
      by rewrite (keyof_lookup _ _ _ Hndb).
    + f_equal. symmetry. apply first_such_none. apply Forall_app. split; [done|].
      constructor; [by rewrite (keyof_lookup _ _ _ Hndb)|].
      assert (comp_ k (value ndb) = true) as Hkb.
      { unfold equiv_ in Heq. rewrite Hb in Heq. by destruct (comp_ k (value ndb)). }
      pose proof (inv_sorted _ _ _ _ _ I) as HS. apply StronglySorted_app_1_r in HS.
      apply StronglySorted_inv in HS as [_ HS]. rewrite Forall_forall in HS.
      apply Forall_forall. intros n Hn. specialize (HS n Hn). unfold key_lt in HS.
      rewrite (keyof_lookup _ _ _ Hndb) in HS.
      unfold equiv_. by rewrite (comp_trans _ _ _ Hkb HS).
Qed.

(** [find k] on a reachable state: the first position of the iteration
    sequence whose value is equivalent to [k], end() when there is none. *)
Theorem find_position sl L k :
  reachable comp_ T_default sl -> positions sl = Ret L ->
  find comp_ sl k = Ret (first_such (fun n => equiv_ comp_ k (key (heap sl) n)) L).
Proof.
  intros Hr Hpos. destruct (reachable_inv sl Hr) as [(hd & L' & I)|(Hh & _)].
  2:{ unfold positions, begin in Hpos. by rewrite Hh in Hpos. }
  rewrite (positions_spec _ _ _ I) in Hpos. injection Hpos as ->.
  by apply (find_spec sl hd).
Qed.

(** Every operation of the container returns on a reachable state that owns
    its sentinel; a missing key gives end() and a count of 0, and clear()
    gives the empty container. *)
Theorem operations_total sl k :
  reachable comp_ T_default sl -> head_ sl <> None ->
  (exists it, find comp_ sl k = Ret it /\
     count comp_ sl k = Ret (if it is Some _ then 1 else 0)) /\
  (exists it, lower_bound comp_ sl k = Ret it) /\
  (exists it, upper_bound comp_ sl k = Ret it) /\
  (exists lo hi, equal_range comp_ sl k = Ret (lo, hi)) /\
  (exists r sl', insert comp_ sl k = Ret (r, sl')) /\
  (exists sl', clear sl = Ret sl' /\ size sl' = 0 /\ empty sl' = true /\
     begin sl' = Ret (end_ sl')).
Proof.
  intros Hr Hh. destruct (reachable_inv sl Hr) as [(hd & L & I)|(Hn & _)]; [|done].
  destruct (bound_run sl hd L (fun x => comp_ x k) I (go_lower_mono k))
    as (A & B & _ & _ & _ & Hlo).
  destruct (bound_run sl hd L (fun x => negb (comp_ k x)) I (go_upper_mono k))
    as (A' & B' & _ & _ & _ & Hhi).
  fold (lower_bound_impl comp_ sl k) in Hlo. fold (upper_bound_impl comp_ sl k) in Hhi.
  fold (lower_bound comp_ sl k) in Hlo. fold (upper_bound comp_ sl k) in Hhi.
  split; [|split; [by eexists|split; [by eexists|split; [|split]]]].
  - eexists. split; [by apply (find_spec sl hd L)|]. unfold count.
    rewrite (find_spec sl hd L k I). cbn [obind]. unfold iter_eq, end_.
    by destruct (first_such _ L).
  - exists (head B), (head B'). unfold equal_range. by rewrite Hlo, Hhi.
  - destruct (insert_spec sl hd L k I) as (? & ? & _ & _ & _ & [Hdup|Hnew]).
    + destruct Hdup as (b & ? & _ & _ & Hins). by eexists _, _.
    + destruct Hnew as (_ & lv & g' & h' & _ & _ & _ & Hins & _). by eexists _, _.
  - destruct (clear_inv sl hd L I) as (sl' & Hc & I'). exists sl'. split; [done|].
    pose proof (inv_size _ _ _ _ _ I') as Hs. cbn in Hs. unfold size, empty. rewrite Hs.
    split; [done|]. split; [done|]. by rewrite (begin_spec _ _ _ I').
Qed.

(** Every node other than the sentinel has [level + 1] forward slots and a
    level below MAX_LEVEL, the sentinel has at least MAX_LEVEL slots, and an
    insertion changes neither value, level nor number of slots of a node that
    already exists. *)
Theorem node_slots_invariant sl hd :
  reachable comp_ T_default sl -> head_ sl = Some hd ->
  (exists nd, heap sl !! hd = Some nd /\ MAX_LEVEL <= length (forward nd)) /\
  (forall n nd, heap sl !! n = Some nd -> n <> hd ->
     length (forward nd) = level nd + 1 /\ level nd < MAX_LEVEL) /\
  (forall v r sl', insert comp_ sl v = Ret (r, sl') ->
     forall n nd, heap sl !! n = Some nd ->
       exists nd', heap sl' !! n = Some nd' /\ value nd' = value nd /\
                   level nd' = level nd /\ length (forward nd') = length (forward nd)).
Proof.
  intros Hr Hh. destruct (reachable_inv sl Hr) as [(hd' & L & I)|(Hn & _)]; [|congruence].
  assert (hd' = hd) as -> by (rewrite (inv_head _ _ _ _ _ I) in Hh; congruence).
  split; [apply I|]. split; [apply I|].
  intros v r sl' Hins n nd Hnd.
  destruct (insert_spec sl hd L v I) as (? & ? & _ & _ & _ & [Hdup|Hnew]).
  - destruct Hdup as (b & ? & _ & _ & Hins'). rewrite Hins' in Hins. injection Hins as _ <-.
    by exists nd.
  - destruct Hnew as (_ & lv & g' & h' & _ & _ & Hsh & Hins' & _).
    rewrite Hins' in Hins. injection Hins as _ <-. cbn [heap].
    apply (same_shape_lookup _ _ _ _ Hsh). by apply lookup_app_l_Some.
Qed.

(** ** Further properties of insertion and lookup *)

Lemma equiv_false_r' a b : comp_ b a = true -> equiv_ comp_ a b = false.
Proof. unfold equiv_. intros ->. apply andb_false_r. Qed.

Lemma reachable_positions sl L :
  reachable comp_ T_default sl -> positions sl = Ret L -> exists hd, Inv sl hd L.
Proof.
  intros Hr Hpos. destruct (reachable_inv sl Hr) as [(hd & L' & I)|(Hh & _)].
  - rewrite (positions_spec _ _ _ I) in Hpos. injection Hpos as ->. by exists hd.
  - unfold positions, begin in Hpos. by rewrite Hh in Hpos.
Qed.

Lemma reachable_sentinel sl :
  reachable comp_ T_default sl -> head_ sl <> None -> exists hd L, Inv sl hd L.
Proof. intros Hr Hh. by destruct (reachable_inv sl Hr) as [?|(Hn & _)]. Qed.

Lemma first_such_ext {X} (f g : X -> bool) (l : list X) :
  (forall x, x ∈ l -> f x = g x) -> first_such f l = first_such g l.
Proof.
  induction l as [|x l IH]; intros H; cbn [first_such]; [done|].
  rewrite (H x) by left. destruct (g x); [done|]. apply IH. intros y Hy. apply H. by right.
Qed.

Lemma first_such_skip {X} (f : X -> bool) (A B : list X) x :
  f x = false -> first_such f (A ++ x :: B) = first_such f (A ++ B).
Proof.
  intros Hx. induction A as [|a A IH]; cbn [app first_such]; [by rewrite Hx|].
  by rewrite IH.
Qed.

Lemma iter_deref_key h n :
  n < length h -> iter_deref h (Some n) = Ret (key h n).
Proof.
  intros Hn. destruct (lookup_lt_is_Some_2 h n Hn) as [nd Hnd].
  unfold iter_deref, deref. rewrite Hnd. cbn [obind]. by rewrite (keyof_lookup _ _ _ Hnd).
Qed.

(** The two ways an insertion ends, in terms of the state it returns. *)
Lemma insert_cases sl hd L v r sl' :
  Inv sl hd L -> insert comp_ sl v = Ret (r, sl') ->
  (exists A b B', L = A ++ b :: B' /\
     Forall (fun n => comp_ (key (heap sl) n) v = true) A /\
     equiv_ comp_ v (key (heap sl) b) = true /\
     r = (Some b, false) /\ sl' = sl) \/
  (exists A B lv, L = A ++ B /\
     Forall (fun n => comp_ (key (heap sl) n) v = true) A /\
     Forall (fun n => comp_ v (key (heap sl) n) = true) B /\
     r = (Some (length (heap sl)), true) /\
     Inv sl' hd (A ++ length (heap sl) :: B) /\
     same_shape (heap sl ++ [new_node v lv]) (heap sl') /\
     size_ sl' = size_ sl + 1 /\
     random_level (gen_ sl) = Ret (lv, gen_ sl')).
Proof.
  intros I Hins.
  destruct (insert_spec sl hd L v I) as (A & B & -> & HA & HB & [Hdup|Hnew]).
  - destruct Hdup as (b & B' & -> & Heq & Hins'). rewrite Hins' in Hins.
    injection Hins as <- <-. left. by exists A, b, B'.
  - destruct Hnew as (HB' & lv & g' & h' & Hrl & _ & Hsh & Hins' & I').
    rewrite Hins' in Hins. injection Hins as <- <-. right. by exists A, B, lv.
Qed.

Lemma old_keys_kept sl hd L v lv h' :
  Inv sl hd L -> same_shape (heap sl ++ [new_node v lv]) h' ->
  forall n, n ∈ L -> key h' n = key (heap sl) n.
Proof.
  intros I Hsh n Hn. destruct (new_node_keys _ _ _ _ Hsh) as [Hold _].
  apply Hold. by apply (inv_alloc _ _ _ _ _ I).
Qed.

(** Inserting a key that has no equivalent in the container: the new node
    takes its sorted place in the iteration sequence, size() grows by one, the
    returned iterator dereferences to the inserted value, and every position
    obtained before still dereferences to the same element. *)
Theorem insert_new_key sl L v :
  reachable comp_ T_default sl -> positions sl = Ret L ->
  (forall n, n ∈ L -> equiv_ comp_ v (key (heap sl) n) = false) ->
  exists nw sl' L1 L2,
    insert comp_ sl v = Ret ((Some nw, true), sl') /\
    L = L1 ++ L2 /\ (nw ∉ L) /\
    positions sl' = Ret (L1 ++ nw :: L2) /\
    Forall (fun n => comp_ (key (heap sl) n) v = true) L1 /\
    Forall (fun n => comp_ v (key (heap sl) n) = true) L2 /\
    iter_deref (heap sl') (Some nw) = Ret v /\
    (forall n, n ∈ L -> iter_deref (heap sl') (Some n) = iter_deref (heap sl) (Some n)) /\
    size sl' = size sl + 1.
Proof.
  intros Hr Hpos Hfresh. destruct (reachable_positions sl L Hr Hpos) as [hd I].
  destruct (insert_spec sl hd L v I) as (A & B & HL & HA & HB & [Hdup|Hnew]).
  - destruct Hdup as (b & B' & -> & Heq & _). rewrite Hfresh in Heq; [done|].
    rewrite HL. apply elem_of_app. right. by left.
  - destruct Hnew as (HB' & lv & g' & h' & _ & _ & Hsh & Hins & I').
    exists (length (heap sl)), (mkSL h' (Some hd) (size_ sl + 1)
      (if decide (max_level_ sl < lv) then lv else max_level_ sl) g'), A, B.
    split; [done|]. split; [done|]. split.
    { intros Hn. apply (inv_alloc _ _ _ _ _ I) in Hn. lia. }
    split; [by apply (positions_spec _ hd)|]. split; [done|]. split; [done|].
    destruct (new_node_keys _ _ _ _ Hsh) as [Hold Hnw].
    assert (length h' = S (length (heap sl))) as Hlen.
    { destruct Hsh as [-> _]. rewrite length_app. cbn. lia. }
    cbn [heap]. split; [|split; [|done]].
    + rewrite iter_deref_key by lia. by rewrite Hnw.
    + intros n Hn. pose proof (inv_alloc _ _ _ _ _ I n Hn) as Hlt.
      rewrite !iter_deref_key by lia. by rewrite Hold.
Qed.

(** Insert, then look up: whatever [insert v] returns, [find v] afterwards
    returns the same position, [count v] is 1, and the element there is
    equivalent to [v] (it is [v] itself when the insertion took place). *)
Theorem insert_then_find sl v it b sl' :
  reachable comp_ T_default sl -> insert comp_ sl v = Ret ((it, b), sl') ->
  find comp_ sl' v = Ret it /\
  count comp_ sl' v = Ret 1 /\
  exists x, iter_deref (heap sl') it = Ret x /\ equiv_ comp_ v x = true /\
            (b = true -> x = v).
Proof.
  intros Hr Hins.
  assert (head_ sl <> None) as Hh.
  { intros Hn. unfold insert, insert_impl in Hins. rewrite Hn in Hins.
    by rewrite descend_update_null in Hins. }
  destruct (reachable_sentinel sl Hr Hh) as (hd & L & I).
  assert (forall n, find comp_ sl' v = Ret (Some n) -> count comp_ sl' v = Ret 1) as Hcount.
  { intros n Hf. unfold count. by rewrite Hf. }
  destruct (insert_cases sl hd L v _ _ I Hins) as [Hdup|Hnew].
  - destruct Hdup as (A & c & B' & -> & HA & Heq & [= -> ->] & ->).
    assert (find comp_ sl v = Ret (Some c)) as Hf.
    { rewrite (find_spec sl hd _ v I). f_equal. apply first_such_hit; [|done].
      eapply Forall_impl; [exact HA|]. cbn. intros n Hn. by apply equiv_false_r'. }
    split; [done|]. split; [by apply (Hcount c)|].
    exists (key (heap sl) c). split; [|done].
    apply iter_deref_key, (inv_alloc _ _ _ _ _ I), elem_of_app. right. by left.
  - destruct Hnew as (A & B & lv & -> & HA & HB & [= -> ->] & I' & Hsh & _).
    destruct (new_node_keys _ _ _ _ Hsh) as [Hold Hnw].
    assert (find comp_ sl' v = Ret (Some (length (heap sl)))) as Hf.
    { rewrite (find_spec sl' hd _ v I'). f_equal. apply first_such_hit.
      - apply Forall_forall. intros n Hn. rewrite Hold.
        + rewrite Forall_forall in HA. by apply equiv_false_r', HA.
        + apply (inv_alloc _ _ _ _ _ I), elem_of_app. by left.
      - rewrite Hnw. unfold equiv_. by rewrite comp_irrefl. }
    split; [done|]. split; [by apply (Hcount (length (heap sl)))|].
    exists v. split; [|split; [unfold equiv_; by rewrite comp_irrefl|done]].
    rewrite iter_deref_key; [by rewrite Hnw|].
    apply (inv_alloc _ _ _ _ _ I'), elem_of_app. right. by left.
Qed.

(** An insertion does not disturb the lookup of any key that is not
    equivalent to the inserted one: [find] returns the same position and
    [count] the same number as before. *)
Theorem insert_keeps_other_keys sl v k r sl' :
  reachable comp_ T_default sl -> insert comp_ sl v = Ret (r, sl') ->
  equiv_ comp_ k v = false ->
  find comp_ sl' k = find comp_ sl k /\ count comp_ sl' k = count comp_ sl k.
Proof.
  intros Hr Hins Hkv.
  assert (head_ sl <> None) as Hh.
  { intros Hn. unfold insert, insert_impl in Hins. rewrite Hn in Hins.
    by rewrite descend_update_null in Hins. }
  destruct (reachable_sentinel sl Hr Hh) as (hd & L & I).
  assert (find comp_ sl' k = find comp_ sl k) as Hf; [|split; [done|unfold count; by rewrite Hf]].
  destruct (insert_cases sl hd L v _ _ I Hins) as [Hdup|Hnew].
  - by destruct Hdup as (A & c & B' & _ & _ & _ & _ & ->).
  - destruct Hnew as (A & B & lv & -> & HA & HB & _ & I' & Hsh & _).
    destruct (new_node_keys _ _ _ _ Hsh) as [Hold Hnw].
    rewrite (find_spec sl' hd _ k I'), (find_spec sl hd _ k I). f_equal.
    rewrite first_such_skip by (by rewrite Hnw).
    apply first_such_ext. intros n Hn. rewrite Hold; [done|].
    by apply (inv_alloc _ _ _ _ _ I).
Qed.

(** size() is the number of positions between begin() and end(), each
    position dereferences to the corresponding element of the iteration, and
    empty() holds exactly when begin() is end(). *)
Theorem size_counts_positions sl :
  reachable comp_ T_default sl -> head_ sl <> None ->
  exists L xs,
    positions sl = Ret L /\ to_list sl = Ret xs /\
    size sl = length L /\
    Forall2 (fun n x => iter_deref (heap sl) (Some n) = Ret x) L xs /\
    (empty sl = true <-> begin sl = Ret (end_ sl)).
Proof.
  intros Hr Hh. destruct (reachable_sentinel sl Hr Hh) as (hd & L & I).
  exists L, (map (key (heap sl)) L).
  split; [by apply (positions_spec _ hd)|]. split; [by apply (to_list_spec _ hd)|].
  split; [apply I|]. split.
  - apply Forall2_fmap_r, Forall_Forall2_diag, Forall_forall. intros n Hn.
    by apply iter_deref_key, (inv_alloc _ _ _ _ _ I).
  - rewrite (begin_spec _ _ _ I). unfold empty, end_. rewrite (inv_size _ _ _ _ _ I).
    destruct L; cbn; split; done.
Qed.

(** Queries on an empty container: every lookup and bound is end(), every
    count is 0, and iteration visits nothing. *)
Theorem empty_container_queries sl k :
  reachable comp_ T_default sl -> head_ sl <> None -> size sl = 0 ->
  find comp_ sl k = Ret (end_ sl) /\ count comp_ sl k = Ret 0 /\
  lower_bound comp_ sl k = Ret (end_ sl) /\ upper_bound comp_ sl k = Ret (end_ sl) /\
  equal_range comp_ sl k = Ret (end_ sl, end_ sl) /\
  begin sl = Ret (end_ sl) /\ to_list sl = Ret [].
Proof.
  intros Hr Hh Hs. destruct (reachable_sentinel sl Hr Hh) as (hd & L & I).
  unfold size in Hs. rewrite (inv_size _ _ _ _ _ I) in Hs.
  destruct L; [|done].
  assert (forall go, (forall a b : T, comp_ a b = true -> go b = true -> go a = true) ->
    (do c <- descend (heap sl) go (max_level_ sl) (head_ sl);
     do nd <- deref (heap sl) c; vec_at (forward nd) 0) = Ret None) as Hb.
  { intros go Hgo. destruct (bound_run sl hd [] go I Hgo) as (A & B & HAB & _ & _ & ->).
    symmetry in HAB. apply app_eq_nil in HAB as [_ ->]. done. }
  pose proof (Hb _ (go_lower_mono k)) as Hlo. pose proof (Hb _ (go_upper_mono k)) as Hhi.
  fold (lower_bound_impl comp_ sl k) in Hlo. fold (upper_bound_impl comp_ sl k) in Hhi.
  fold (lower_bound comp_ sl k) in Hlo. fold (upper_bound comp_ sl k) in Hhi.
  assert (find comp_ sl k = Ret None) as Hf by (by rewrite (find_spec sl hd [] k I)).
  unfold end_. split; [done|]. split; [unfold count; by rewrite Hf|].
  split; [done|]. split; [done|]. split; [unfold equal_range; by rewrite Hlo, Hhi|].
  split; [by rewrite (begin_spec _ _ _ I)|]. by rewrite (to_list_spec _ _ _ I).
Qed.

(** clear() composes with insertion as construction does: a cleared
    container filled with any sequence of keys iterates over the distinct keys
    in ascending order, with their number as size(). *)
Theorem clear_then_refill sl (ks : list T) :
  reachable comp_ T_default sl -> head_ sl <> None ->
  exists sl0 sl' xs,
    clear sl = Ret sl0 /\ insert_all comp_ sl0 ks = Ret sl' /\
    to_list sl' = Ret xs /\
    StronglySorted (fun a b => comp_ a b = true) xs /\
    xs ≡ₚ distinct comp_ ks /\
    size sl' = length (distinct comp_ ks).
Proof.
  intros Hr Hh. destruct (reachable_sentinel sl Hr Hh) as (hd & L & I).
  destruct (clear_inv sl hd L I) as (sl0 & Hc & I0).
  destruct (insert_all_distinct ks sl0 hd [] [] I0 ltac:(done)) as (sl' & L' & Hall & I' & Hp).
  exists sl0, sl', (map (key (heap sl')) L'). split; [done|]. split; [done|].
  split; [by apply (to_list_spec _ hd)|]. split; [apply sorted_keys, I'|]. split; [done|].
  unfold size. rewrite (inv_size _ _ _ _ _ I').
  apply Permutation_length in Hp. by rewrite length_map in Hp.
Qed.

(** An iterator obtained before clear() keeps its node: afterwards it still
    dereferences to its element and ++ walks the rest of the old sequence,
    while the container itself iterates as empty. *)
Theorem iterator_survives_clear sl L1 n L2 sl' :
  reachable comp_ T_default sl -> positions sl = Ret (L1 ++ n :: L2) ->
  clear sl = Ret sl' ->
  positions sl' = Ret [] /\
  iter_deref (heap sl') (Some n) = iter_deref (heap sl) (Some n) /\
  walk (fuel_of (heap sl')) (heap sl') (Some n) = Ret (n :: L2) /\
  collect (fuel_of (heap sl')) (heap sl') (Some n)
  = collect (fuel_of (heap sl)) (heap sl) (Some n).
Proof.
  intros Hr Hpos Hc. destruct (reachable_positions sl _ Hr Hpos) as [hd I].
  destruct (clear_inv sl hd _ I) as (sl2 & Hc2 & I2). rewrite Hc2 in Hc. injection Hc as ->.
  split; [by apply (positions_spec _ hd)|].
  destruct (inv_head_node _ _ _ _ _ I) as (nd & Hnd & _).
  unfold clear in Hc2. rewrite (inv_head _ _ _ _ _ I) in Hc2. cbn [deref] in Hc2.
  rewrite Hnd in Hc2. cbn [obind] in Hc2. injection Hc2 as <-. cbn [heap].
  set (h' := <[hd := _]> (heap sl)).
  assert (forall m, m ∈ L1 ++ n :: L2 -> h' !! m = heap sl !! m) as Hsame.
  { intros m Hm. unfold h'. apply list_lookup_insert_ne. intros <-.
    by apply (inv_head_fresh _ _ _ _ _ I). }
  assert (forall m, m ∈ L1 ++ n :: L2 -> next h' 0 m = next (heap sl) 0 m) as Hnext.
  { intros m Hm. unfold next. by rewrite Hsame. }
  assert (forall m, m ∈ L1 ++ n :: L2 -> key h' m = key (heap sl) m) as Hkey.
  { intros m Hm. unfold keyof. by rewrite Hsame. }
  assert (n ∈ L1 ++ n :: L2) as Hn by (apply elem_of_app; right; by left).
  destruct (inv_chain0 _ _ _ I) as [_ Hf].
  apply follow_app in Hf as (r & _ & Hf). pose proof (follow_head _ _ _ _ _ _ Hf) as ->.
  assert (follow h' 0 (Some n) (n :: L2) = Some None) as Hf'.
  { rewrite <- Hf. apply follow_frame. intros m Hm. apply Hnext, elem_of_app. by right. }
  assert (length (n :: L2) < fuel_of (heap sl)) as Hfuel.
  { pose proof (inv_fuel _ _ _ I) as H. rewrite length_app in H. lia. }
  assert (fuel_of h' = fuel_of (heap sl)) as Hfl by (unfold fuel_of, h'; by rewrite length_insert).
  split; [|split].
  - unfold iter_deref, deref. by rewrite Hsame.
  - apply walk_spec; [done|by rewrite Hfl].
  - rewrite (collect_spec h' (n :: L2)), (collect_spec (heap sl) (n :: L2)); [|done..|by rewrite Hfl].
    f_equal. apply map_ext_in. intros m Hm%list_elem_of_In. apply Hkey, elem_of_app. by right.
Qed.

(** What an insertion draws from the generator: a rejected duplicate draws
    nothing; an insertion that takes place draws one number more than the
    level of the node it creates. *)
Theorem insert_draws sl v it b sl' :
  reachable comp_ T_default sl -> insert comp_ sl v = Ret ((it, b), sl') ->
  (b = false -> gen_ sl' = gen_ sl) /\
  (b = true -> exists nw lv, it = Some nw /\ lvl (heap sl') nw = lv /\
                 forall n, gen_ sl' n = gen_ sl (S lv + n)).
Proof.
  intros Hr Hins.
  assert (head_ sl <> None) as Hh.
  { intros Hn. unfold insert, insert_impl in Hins. rewrite Hn in Hins.
    by rewrite descend_update_null in Hins. }
  destruct (reachable_sentinel sl Hr Hh) as (hd & L & I).
  destruct (insert_cases sl hd L v _ _ I Hins) as [Hdup|Hnew].
  - destruct Hdup as (A & c & B' & _ & _ & _ & [= -> ->] & ->). by split.
  - destruct Hnew as (A & B & lv & _ & _ & _ & [= -> ->] & _ & Hsh & _ & Hrl).
    split; [done|]. intros _. exists (length (heap sl)), lv. split; [done|]. split.
    + rewrite (same_shape_lvl _ _ _ Hsh). unfold lvl.
      rewrite lookup_app_r by lia. by rewrite Nat.sub_diag.
    + by apply random_level_consumes.
Qed.

Lemma first_such_existsb {X} (f : X -> bool) (l : list X) :
  (if first_such f l is Some _ then 1 else 0) = (if existsb f l then 1 else 0).
Proof. induction l as [|x l IH]; cbn [first_such existsb]; [done|]. by destruct (f x). Qed.

(** [count k] is 1 when some element of the container is equivalent to [k]
    and 0 otherwise: it is the membership test of the container. *)
Theorem count_membership sl L k :
  reachable comp_ T_default sl -> positions sl = Ret L ->
  count comp_ sl k
  = Ret (if existsb (fun n => equiv_ comp_ k (key (heap sl) n)) L then 1 else 0).
Proof.
  intros Hr Hpos. destruct (reachable_positions sl L Hr Hpos) as [hd I].
  unfold count. rewrite (find_spec sl hd L k I). cbn [obind]. f_equal.
  rewrite <- first_such_existsb. unfold iter_eq, end_. by destruct (first_such _ L).
Qed.

Lemma max_list_app (l1 l2 : list nat) :
  max_list (l1 ++ l2) = max_list l1 `max` max_list l2.
Proof. induction l1 as [|x l1 IH]; cbn [app max_list]; [done|]. rewrite IH. lia. Qed.

(** [max_level_] is the level of the tallest node in the container, and 0 in
    an empty one: the descent of every search starts at the highest level in
    use. *)
Theorem max_level_is_tallest sl :
  reachable comp_ T_default sl -> head_ sl <> None ->
  exists L, positions sl = Ret L /\
            max_level_ sl = max_list (map (lvl (heap sl)) L).
Proof.
  intros Hr Hh.
  assert (exists hd L, Inv sl hd L /\ max_level_ sl = max_list (map (lvl (heap sl)) L))
    as (hd & L & I & Hm); [|exists L; split; [by apply (positions_spec _ hd)|done]].
  induction Hr as [g|sl v r sl' Hr IH Hi|sl sl' Hr IH Hc|sl Hr IH|sl Hr IH].
  - exists 0, []. split; [apply new_inv|done].
  - assert (head_ sl <> None) as Hhs.
    { intros Hn. unfold insert, insert_impl in Hi. rewrite Hn in Hi.
      by rewrite descend_update_null in Hi. }
    destruct (IH Hhs) as (hd & L & I & Hm).
    destruct (insert_spec sl hd L v I) as (A & B & -> & _ & _ & [Hdup|Hnew]).
    + destruct Hdup as (b & B' & -> & _ & Hins). rewrite Hins in Hi.
      injection Hi as _ <-. by exists hd, (A ++ b :: B').
    + destruct Hnew as (_ & lv & g' & h' & _ & _ & Hsh & Hins & I').
      rewrite Hins in Hi. injection Hi as _ <-.
      exists hd, (A ++ length (heap sl) :: B). split; [done|]. cbn [heap max_level_].
      assert (forall l, (forall n, n ∈ l -> n < length (heap sl)) ->
                map (lvl h') l = map (lvl (heap sl)) l) as Hold.
      { intros l Hl. apply map_ext_in. intros n Hn%list_elem_of_In.
        rewrite (same_shape_lvl _ _ _ Hsh). unfold lvl. by rewrite lookup_app_l by auto. }
      assert (lvl h' (length (heap sl)) = lv) as Hnw.
      { rewrite (same_shape_lvl _ _ _ Hsh). unfold lvl.
        rewrite lookup_app_r by lia. by rewrite Nat.sub_diag. }
      rewrite map_app in Hm. rewrite max_list_app in Hm.
      rewrite map_app. cbn [map]. rewrite max_list_app. cbn [max_list].
      rewrite Hnw, !Hold.
      * change (id lv) with lv. case_decide; lia.
      * intros n Hn. apply (inv_alloc _ _ _ _ _ I), elem_of_app. by right.
      * intros n Hn. apply (inv_alloc _ _ _ _ _ I), elem_of_app. by left.
  - assert (head_ sl <> None) as Hhs.
    { intros Hn. unfold clear in Hc. by rewrite Hn in Hc. }
    destruct (IH Hhs) as (hd & L & I & _).
    destruct (clear_inv sl hd L I) as (sl2 & Hc2 & I2). rewrite Hc2 in Hc.
    injection Hc as <-. exists hd, []. split; [done|].
    unfold clear in Hc2. destruct (head_ sl); [|done].
    destruct (deref (heap sl) (Some n)); cbn [obind] in Hc2; [|done..].
    by injection Hc2 as <-.
  - destruct sl. cbn in *. by apply IH.
  - done.
Qed.

Lemma copy_run (g : rng) other hd L :
  Inv other hd L ->
  exists cp Lc, copy_construct comp_ T_default g other = Ret cp /\
                Inv cp 0 Lc /\ map (key (heap cp)) Lc = map (key (heap other)) L.
Proof.
  intros I. set (xs := map (key (heap other)) L).
  assert (StronglySorted (fun a b => comp_ a b = true) xs) as HS by apply sorted_keys, I.
  destruct (insert_all_distinct xs (new T_default g) 0 [] [] (new_inv g) ltac:(done))
    as (cp & Lc & Hall & Ic & Hperm).
  rewrite (distinct_fold_sorted xs []) in Hperm; [|by intros ? ? ?%elem_of_nil|done].
  cbn [app] in Hperm. exists cp, Lc.
  split; [unfold copy_construct; by rewrite (to_list_spec _ _ _ I)|]. split; [done|].
  apply (StronglySorted_unique_strong (fun a b => comp_ a b = true)); [|apply sorted_keys, Ic|done..].
  intros a b _ _ Hab Hba. pose proof (comp_trans _ _ _ Hab Hba) as H.
  by rewrite comp_irrefl in H.
Qed.

(** The two assignment operators. Assigning an object to itself changes
    nothing. Otherwise copy assignment never looks at what the target held,
    so it works on any target, a moved-from one included, and gives it the
    source's iteration sequence and size; move assignment gives the target
    the source's sequence and size and leaves the source with size 0, but
    it clears the target first, which dereferences the target's sentinel: on
    a moved-from target that is a null dereference. *)
Theorem assignment_spec (g : rng) this moved other xs :
  reachable comp_ T_default this -> head_ this <> None ->
  head_ moved = None ->
  reachable comp_ T_default other -> to_list other = Ret xs ->
  (forall x, copy_assign comp_ T_default g x itself = Ret x /\
             move_assign x itself = Ret (x, x)) /\
  (forall target,
     exists cp, copy_assign comp_ T_default g target (another other) = Ret cp /\
                to_list cp = Ret xs /\ size cp = size other) /\
  (exists dst src, move_assign this (another other) = Ret (dst, src) /\
                   to_list dst = Ret xs /\ size dst = size other /\
                   size src = 0 /\ empty src = true) /\
  move_assign moved (another other) = Fault.
Proof.
  intros Hrt Hh Hm Hr Hxs. split; [done|]. split; [|split].
  - intros target.
    assert (head_ other <> None) as Hho.
    { intros Hn. unfold to_list, begin in Hxs. by rewrite Hn in Hxs. }
    destruct (reachable_sentinel other Hr Hho) as (hd & L & I).
    destruct (copy_run g other hd L I) as (cp & Lc & Hcp & Ic & Hk).
    rewrite (to_list_spec _ _ _ I) in Hxs. injection Hxs as <-.
    exists cp. cbn [copy_assign]. rewrite Hcp. cbn [obind swap fst].
    split; [done|]. split; [by rewrite (to_list_spec _ _ _ Ic), Hk|].
    unfold size. rewrite (inv_size _ _ _ _ _ Ic), (inv_size _ _ _ _ _ I).
    by rewrite <- (length_map (key (heap cp))), Hk, length_map.
  - destruct (reachable_sentinel this Hrt Hh) as (hd & L & I).
    destruct (clear_inv this hd L I) as (c & Hc & _).
    cbn [move_assign]. rewrite Hc. cbn [obind]. eexists _, _. split; [done|].
    split; [|done]. rewrite <- Hxs. by destruct other.
  - cbn [move_assign]. unfold clear. by rewrite Hm.
Qed.

Lemma moved_from_no_live sl n : head_ sl = None -> ~ live sl n.
Proof. intros Hh. induction 1; congruence. Qed.

(** The node after which the index-0 chain ends is the one whose key no
    live node's key exceeds. *)
Lemma chain_end_greatest sl hd L n :
  Inv sl hd L -> n ∈ L ->
  (next (heap sl) 0 n = Some None
   <-> forall m, live sl m -> comp_ (key (heap sl) n) (key (heap sl) m) = false).
Proof.
  intros I Hn. destruct (inv_chain0 _ _ _ I) as [_ Hf].
  apply list_elem_of_split in Hn as (X & Y & ->).
  pose proof (inv_sorted _ _ _ _ _ I) as HS.
  apply follow_app in Hf as (r & _ & Hf).
  pose proof (follow_head _ _ _ _ _ _ Hf) as ->.
  apply follow_cons in Hf as (q & Hq & Hf). rewrite Hq. split.
  - intros [= ->] m Hm%(live_in_chain sl hd _ I).
    destruct Y as [|y Y]; [|by apply follow_head in Hf].
    destruct (comp_ (key (heap sl) n) (key (heap sl) m)) eqn:E; [|done].
    apply elem_of_app in Hm as [Hm|Hm%list_elem_of_singleton].
    + pose proof (StronglySorted_app_1_elem_of _ _ _ m n HS Hm ltac:(left)) as Hmn.
      unfold key_lt in Hmn. pose proof (comp_trans _ _ _ E Hmn) as H.
      by rewrite comp_irrefl in H.
    + subst m. by rewrite comp_irrefl in E.
  - intros Hmax. destruct Y as [|y Y].
    + cbn in Hf. congruence.
    + assert (live sl y) as Hy.
      { apply (chain_live sl hd _ I). apply elem_of_app. right. right. left. }
      apply StronglySorted_app_1_r, StronglySorted_inv in HS as [_ HS].
      rewrite Forall_forall in HS. pose proof (HS y ltac:(left)) as Hny.
      unfold key_lt in Hny. by rewrite (Hmax y Hy) in Hny.
Qed.

(** C10. Incrementing an iterator that holds no node (end() or a
    default-constructed iterator) returns normally and leaves it equal to
    end(), whatever the nodes are. In a container, incrementing the iterator
    at the last element (the element no element of the container is greater
    than) yields end(), and at no other element does it. *)
Theorem increment_at_end sl n :
  (forall h : store,
     iter_incr h (end_ sl) = Ret (end_ sl) /\
     iter_incr h default_iterator = Ret (end_ sl)) /\
  (reachable comp_ T_default sl -> live sl n ->
   (iter_incr (heap sl) (Some n) = Ret (end_ sl)
    <-> forall m, live sl m -> comp_ (key (heap sl) n) (key (heap sl) m) = false)).
Proof.
  split; [done|]. intros Hr Hn.
  destruct (reachable_inv sl Hr) as [(hd & L & I)|(Hh & _)].
  2:{ by apply moved_from_no_live in Hn. }
  pose proof (live_in_chain sl hd L I n Hn) as HnL.
  rewrite <- (chain_end_greatest sl hd L n I HnL).
  destruct (inv_chain0 _ _ _ I) as [_ Hf].
  pose proof HnL as (X & Y & ->)%list_elem_of_split.
  apply follow_app in Hf as (r & _ & Hf).
  pose proof (follow_head _ _ _ _ _ _ Hf) as ->.
  apply follow_cons in Hf as (q & Hq & _).
  rewrite (iter_incr_next _ _ _ Hq), Hq. unfold end_. split; by intros [= ->].
Qed.

Section Incomparability.
Hypothesis comp_negtrans :
  forall a b c, comp_ a b = true -> comp_ a c = true \/ comp_ c b = true.

(** C3. When an element equivalent to [v] is present, [insert v] returns
    that element's position with inserted = false and the container is left
    exactly as it was (store, size, maximum level, generator). *)
Theorem insert_existing_unchanged sl L n v :
  reachable comp_ T_default sl -> positions sl = Ret L -> n ∈ L ->
  equiv_ comp_ (key (heap sl) n) v = true ->
  insert comp_ sl v = Ret ((Some n, false), sl).
Proof.
  intros Hr Hpos Hn Heq.
  destruct (reachable_inv sl Hr) as [(hd & L' & I)|(Hh & _)].
  2:{ unfold positions, begin in Hpos. by rewrite Hh in Hpos. }
  rewrite (positions_spec _ _ _ I) in Hpos. injection Hpos as ->.
  unfold equiv_ in Heq. apply andb_true_iff in Heq as [Hnv Hvn].
  apply negb_true_iff in Hnv, Hvn.
  destruct (insert_spec sl hd L v I) as (A & B & -> & HA & HB & [Hdup|Hnew]).
  - destruct Hdup as (b & B' & -> & Hb & Hins). rewrite Hins. do 3 f_equal.
    rewrite Forall_forall in HA.
    apply elem_of_app in Hn as [Hn|[->|Hn]%elem_of_cons]; [|done|].
    + rewrite (HA n Hn) in Hnv. done.
    + pose proof (inv_sorted _ _ _ _ _ I) as HS. apply StronglySorted_app_1_r in HS.
      apply StronglySorted_inv in HS as [_ HS]. rewrite Forall_forall in HS.
      specialize (HS n Hn). unfold key_lt in HS.
      unfold equiv_ in Hb. apply andb_true_iff in Hb as [Hvb Hbv].
      apply negb_true_iff in Hvb, Hbv.
      destruct (comp_negtrans _ _ v HS) as [H|H]; congruence.
  - destruct Hnew as (HB' & _). rewrite Forall_forall in HA, HB'.
    apply elem_of_app in Hn as [Hn|Hn].
    + rewrite (HA n Hn) in Hnv. done.
    + rewrite (HB' n Hn) in Hvn. done.
Qed.

Lemma first_such_split {X} (f : X -> bool) (A B : list X) :
  Forall (fun x => f x = false) A -> Forall (fun x => f x = true) B ->
  first_such f (A ++ B) = head B.
Proof.
  intros HA HB. induction HA as [|a A Ha HA IH]; cbn [app first_such].
  - destruct HB as [|b B Hb HB]; [done|]. cbn. by rewrite Hb.
  - by rewrite Ha.
Qed.

Lemma chain_next h p X e Y :
  follow h 0 p (X ++ e :: Y) = Some None -> next h 0 e = Some (head Y).
Proof.
  intros (r & _ & Hf)%follow_app. pose proof (follow_head _ _ _ _ _ _ Hf) as ->.
  apply follow_cons in Hf as (q & Hq & Hf). rewrite Hq. f_equal.
  destruct Y as [|y Y]; cbn [head]; [cbn in Hf; congruence|]. by apply follow_head in Hf.
Qed.

(** C4. [lower_bound k] is the first position whose value is not less than
    [k], [upper_bound k] the first position whose value is greater than [k]
    (the end position when there is none); [equal_range k] is the pair of
    the two, and iterating from its first to its second component visits at
    most one element. *)
Theorem bounds_spec sl L k :
  reachable comp_ T_default sl -> positions sl = Ret L ->
  lower_bound comp_ sl k
    = Ret (first_such (fun n => negb (comp_ (key (heap sl) n) k)) L) /\
  upper_bound comp_ sl k
    = Ret (first_such (fun n => comp_ k (key (heap sl) n)) L) /\
  exists lo hi r,
    lower_bound comp_ sl k = Ret lo /\ upper_bound comp_ sl k = Ret hi /\
    equal_range comp_ sl k = Ret (lo, hi) /\
    walk_to (fuel_of (heap sl)) (heap sl) lo hi = Ret r /\ length r <= 1.
Proof.
  intros Hr Hpos.
  destruct (reachable_inv sl Hr) as [(hd & L' & I)|(Hh & _)].
  2:{ unfold positions, begin in Hpos. by rewrite Hh in Hpos. }
  rewrite (positions_spec _ _ _ I) in Hpos. injection Hpos as ->.
  destruct (bound_run sl hd L (fun x => comp_ x k) I (go_lower_mono k))
    as (A & B & HL & HA & HB & Hlo).
  destruct (bound_run sl hd L (fun x => negb (comp_ k x)) I (go_upper_mono k))
    as (A' & B' & HL' & HA' & HB' & Hhi).
  fold (lower_bound_impl comp_ sl k) in Hlo. fold (upper_bound_impl comp_ sl k) in Hhi.
  fold (lower_bound comp_ sl k) in Hlo. fold (upper_bound comp_ sl k) in Hhi.
  assert (first_such (fun n => negb (comp_ (key (heap sl) n) k)) L = head B) as ->.
  { rewrite HL. apply first_such_split.
    - eapply Forall_impl; [exact HA|]. cbn. by intros n ->.
    - eapply Forall_impl; [exact HB|]. cbn. by intros n ->. }
  assert (first_such (fun n => comp_ k (key (heap sl) n)) L = head B') as ->.
  { rewrite HL'. apply first_such_split.
    - eapply Forall_impl; [exact HA'|]. cbn. by intros n ->%negb_true_iff.
    - eapply Forall_impl; [exact HB'|]. cbn. by intros n ->%negb_false_iff. }
  split; [done|]. split; [done|].
  exists (head B), (head B').
  assert (exists E, B = E ++ B' /\ length E <= 1) as (E & HE & HlenE).
  { assert (A ++ B = A' ++ B') as Heq by congruence.
    apply app_eq_inv in Heq as [(E & -> & ->)|(E & -> & ->)].
    - destruct E as [|e E]; [exists []; split; [done|cbn; lia]|]. exfalso.
      apply Forall_app in HA as [_ HA]. apply Forall_cons in HA as [He _].
      apply Forall_cons in HB' as [He' _]. apply negb_false_iff in He'.
      pose proof (comp_trans _ _ _ He He') as Hee. by rewrite comp_irrefl in Hee.
    - exists E. split; [done|]. destruct E as [|e1 [|e2 E]]; [cbn; lia..|]. exfalso.
      pose proof (inv_sorted _ _ _ _ _ I) as HS. rewrite HL in HS.
      apply StronglySorted_app_1_r, StronglySorted_app_1_l in HS.
      apply StronglySorted_inv in HS as [_ HS]. apply Forall_cons in HS as [H12 _].
      unfold key_lt in H12.
      apply Forall_cons in HB as [H1 _].
      apply Forall_app in HA' as [_ HA']. apply Forall_cons in HA' as [_ HA'].
      apply Forall_cons in HA' as [H2%negb_true_iff _].
      destruct (comp_negtrans _ _ k H12); congruence. }
  assert (length (heap sl) >= 1) as Hlen.
  { destruct (inv_head_node _ _ _ _ _ I) as (nd & Hnd%lookup_lt_Some & _). lia. }
  assert (equal_range comp_ sl k = Ret (head B, head B')) as Her
    by (unfold equal_range; by rewrite Hlo, Hhi).
  destruct E as [|e [|? ?]]; [| |cbn in HlenE; lia].
  - cbn [app] in HE. subst B. exists []. split; [done|]. split; [done|]. split; [done|].
    split; [|cbn; lia]. unfold fuel_of. cbn [walk_to]. unfold iter_eq.
    by rewrite bool_decide_eq_true_2.
  - subst B. cbn [app head]. cbn [app head] in Her, Hlo. exists [e].
    split; [done|]. split; [done|]. split; [done|]. split; [|cbn; lia].
    assert (Some e <> head B') as Hne.
    { intros Hh. pose proof (inv_NoDup _ _ _ I) as [_ Hnd]%NoDup_cons. rewrite HL in Hnd.
      apply NoDup_app in Hnd as (_ & _ & Hnd). apply NoDup_cons in Hnd as [Hnd _].
      apply Hnd. destruct B' as [|b B'']; [done|]. injection Hh as ->. by left. }
    destruct (inv_chain0 _ _ _ I) as [_ Hf]. rewrite HL in Hf.
    apply chain_next in Hf.
    unfold fuel_of. destruct (length (heap sl)) as [|len]; [lia|].
    cbn [walk_to]. unfold iter_eq at 1. rewrite bool_decide_eq_false_2 by done.
    rewrite (iter_incr_next _ _ _ Hf). cbn [obind].
    unfold iter_eq. by rewrite bool_decide_eq_true_2.
Qed.

(** *** Equivalence classes of keys *)

Lemma equiv_refl a : equiv_ comp_ a a = true.
Proof. unfold equiv_. by rewrite comp_irrefl. Qed.

Lemma equiv_sym a b : equiv_ comp_ a b = equiv_ comp_ b a.
Proof. unfold equiv_. apply andb_comm. Qed.

Lemma equiv_false_l a b : comp_ a b = true -> equiv_ comp_ a b = false.
Proof. unfold equiv_. by intros ->. Qed.

Lemma equiv_false_r a b : comp_ b a = true -> equiv_ comp_ a b = false.
Proof. unfold equiv_. intros ->. apply andb_false_r. Qed.

Lemma comp_equiv_r a b c :
  comp_ a b = true -> equiv_ comp_ b c = true -> comp_ a c = true.
Proof.
  intros Hab Hbc. destruct (comp_negtrans _ _ c Hab) as [H|H]; [done|].
  by rewrite (equiv_false_r b c H) in Hbc.
Qed.

Lemma comp_equiv_l a b c :
  comp_ a b = true -> equiv_ comp_ a c = true -> comp_ c b = true.
Proof.
  intros Hab Hac. destruct (comp_negtrans _ _ c Hab) as [H|H]; [|done].
  by rewrite (equiv_false_l a c H) in Hac.
Qed.

Lemma equiv_trans a b c :
  equiv_ comp_ a b = true -> equiv_ comp_ b c = true -> equiv_ comp_ a c = true.
Proof.
  intros Hab Hbc. unfold equiv_.
  destruct (comp_ a c) eqn:Hac.
  - rewrite equiv_sym in Hbc. pose proof (comp_equiv_r _ _ _ Hac Hbc) as H.
    by rewrite (equiv_false_l a b H) in Hab.
  - destruct (comp_ c a) eqn:Hca; [|done].
    pose proof (comp_equiv_r _ _ _ Hca Hab) as H.
    by rewrite (equiv_false_r b c H) in Hbc.
Qed.

Lemma distinct_fold_in ks : forall (acc : list T) x,
  x ∈ foldl (distinct_step comp_) acc ks -> x ∈ acc \/ x ∈ ks.
Proof.
  induction ks as [|k ks IH]; intros acc x Hx; [by left|]. cbn [foldl] in Hx.
  apply IH in Hx as [Hx|Hx]; [|right; by right].
  unfold distinct_step in Hx. destruct (existsb _ acc); [by left|].
  apply elem_of_app in Hx as [?|Hx]; [by left|].
  apply list_elem_of_singleton in Hx as ->. right. by left.
Qed.

Lemma distinct_fold_mono ks : forall (acc : list T) x,
  x ∈ acc -> x ∈ foldl (distinct_step comp_) acc ks.
Proof.
  induction ks as [|k ks IH]; intros acc x Hx; [done|]. cbn [foldl]. apply IH.
  unfold distinct_step. destruct (existsb _ acc); [done|]. apply elem_of_app. by left.
Qed.

Lemma distinct_fold_cover ks : forall (acc : list T) k,
  k ∈ ks -> exists x, x ∈ foldl (distinct_step comp_) acc ks /\ equiv_ comp_ k x = true.
Proof.
  induction ks as [|k0 ks IH]; intros acc k Hk; [by apply elem_of_nil in Hk|].
  cbn [foldl]. apply elem_of_cons in Hk as [->|Hk]; [|by apply IH].
  unfold distinct_step. destruct (existsb (equiv_ comp_ k0) acc) eqn:E.
  - apply existsb_exists in E as (x & Hx%list_elem_of_In & He).
    exists x. split; [by apply distinct_fold_mono|done].
  - exists k0. split; [|apply equiv_refl].
    apply distinct_fold_mono, elem_of_app. right. by left.
Qed.

Lemma distinct_same_classes (ks1 ks2 : list T) x :
  ks1 ≡ₚ ks2 -> x ∈ distinct comp_ ks1 ->
  exists y, y ∈ distinct comp_ ks2 /\ equiv_ comp_ x y = true.
Proof.
  intros Hp Hx. apply distinct_fold_in in Hx as [Hx|Hx]; [by apply elem_of_nil in Hx|].
  apply distinct_fold_cover. by rewrite <- Hp.
Qed.

(** Two strictly ascending sequences with the same classes agree position by position. *)
Lemma sorted_same_classes (xs : list T) : forall ys,
  StronglySorted (fun a b => comp_ a b = true) xs ->
  StronglySorted (fun a b => comp_ a b = true) ys ->
  (forall x, x ∈ xs -> exists y, y ∈ ys /\ equiv_ comp_ x y = true) ->
  (forall y, y ∈ ys -> exists x, x ∈ xs /\ equiv_ comp_ y x = true) ->
  Forall2 (fun x y => equiv_ comp_ x y = true) xs ys.
Proof.
  induction xs as [|x xs IH]; intros ys Hsx Hsy Hxy Hyx.
  - destruct ys as [|y ys]; [constructor|].
    destruct (Hyx y ltac:(left)) as (? & []%elem_of_nil & _).
  - destruct ys as [|y ys].
    { destruct (Hxy x ltac:(left)) as (? & []%elem_of_nil & _). }
    apply StronglySorted_inv in Hsx as [Hsx Hx]. apply StronglySorted_inv in Hsy as [Hsy Hy].
    rewrite Forall_forall in Hx, Hy.
    assert (equiv_ comp_ x y = true) as Hxy0.
    { destruct (Hxy x ltac:(left)) as (y' & [->|Hy']%elem_of_cons & He); [done|].
      destruct (Hyx y ltac:(left)) as (x' & [->|Hx']%elem_of_cons & He'); [by rewrite equiv_sym|].
      exfalso.
      assert (comp_ y x = true) as Hyx0.
      { apply (comp_equiv_r _ _ _ (Hy y' Hy')). by rewrite equiv_sym. }
      assert (comp_ x y = true) as Hxy1.
      { apply (comp_equiv_r _ _ _ (Hx x' Hx')). by rewrite equiv_sym. }
      pose proof (comp_trans _ _ _ Hxy1 Hyx0) as H. by rewrite comp_irrefl in H. }
    constructor; [done|]. apply IH; [done..| |].
    + intros x' Hx'. destruct (Hxy x' ltac:(by right)) as (y' & [->|Hy']%elem_of_cons & He).
      * exfalso. rewrite equiv_sym in He. pose proof (equiv_trans _ _ _ Hxy0 He) as H.
        by rewrite (equiv_false_l _ _ (Hx x' Hx')) in H.
      * by exists y'.
    + intros y' Hy'. destruct (Hyx y' ltac:(by right)) as (x' & [->|Hx']%elem_of_cons & He).
      * exfalso. rewrite equiv_sym in Hxy0, He. pose proof (equiv_trans _ _ _ Hxy0 He) as H.
        by rewrite (equiv_false_l _ _ (Hy y' Hy')) in H.
      * by exists x'.
Qed.

(** *** The relational operators *)

Section Relational.
Variable T_eq : T -> T -> bool.
Variable T_lt : T -> T -> bool.

Lemma iter_deref_node h n nd : h !! n = Some nd -> iter_deref h (Some n) = Ret (value nd).
Proof. intros Hn. unfold iter_deref, deref. by rewrite Hn. Qed.

Lemma std_equal_spec h1 h2 l1 : forall l2 fuel p1 p2,
  follow h1 0 p1 l1 = Some None -> follow h2 0 p2 l2 = Some None ->
  length l1 = length l2 -> length l1 < fuel ->
  std_equal T_eq fuel h1 p1 h2 p2
  = Ret (seq_eq T_eq (map (key h1) l1) (map (key h2) l2)).
Proof.
  induction l1 as [|n l1 IH]; intros l2 fuel p1 p2 Hf1 Hf2 Hlen Hfuel.
  - destruct l2; [|done]. cbn in Hf1. injection Hf1 as ->. destruct fuel; [lia|done].
  - destruct l2 as [|m l2]; [done|]. destruct fuel as [|fuel]; [lia|].
    pose proof (follow_head _ _ _ _ _ _ Hf1) as ->.
    pose proof (follow_head _ _ _ _ _ _ Hf2) as ->.
    apply follow_cons in Hf1 as (r1 & Hr1 & Hf1). apply follow_cons in Hf2 as (r2 & Hr2 & Hf2).
    pose proof Hr1 as (nd1 & Hnd1 & _)%next_Some. pose proof Hr2 as (nd2 & Hnd2 & _)%next_Some.
    cbn [std_equal]. rewrite (iter_deref_node _ _ _ Hnd1), (iter_deref_node _ _ _ Hnd2).
    cbn [obind map seq_eq]. rewrite (keyof_lookup _ _ _ Hnd1), (keyof_lookup _ _ _ Hnd2).
    destruct (T_eq (value nd1) (value nd2)); [|done]. cbn [andb].
    rewrite (iter_incr_next _ _ _ Hr1), (iter_incr_next _ _ _ Hr2). cbn [obind].
    apply IH; [done..| |]; cbn in Hlen, Hfuel; lia.
Qed.

Lemma std_lexicographical_compare_spec h1 h2 l1 : forall l2 fuel p1 p2,
  follow h1 0 p1 l1 = Some None -> follow h2 0 p2 l2 = Some None ->
  length l1 < fuel ->
  std_lexicographical_compare T_lt fuel h1 p1 h2 p2
  = Ret (lex_lt T_lt (map (key h1) l1) (map (key h2) l2)).
Proof.
  induction l1 as [|n l1 IH]; intros l2 fuel p1 p2 Hf1 Hf2 Hfuel.
  - cbn in Hf1. injection Hf1 as ->. destruct fuel; [lia|]. cbn [std_lexicographical_compare].
    destruct l2 as [|m l2]; [cbn in Hf2; by injection Hf2 as ->|].
    by pose proof (follow_head _ _ _ _ _ _ Hf2) as ->.
  - destruct fuel as [|fuel]; [lia|].
    pose proof (follow_head _ _ _ _ _ _ Hf1) as ->.
    destruct l2 as [|m l2]; [cbn in Hf2; by injection Hf2 as ->|].
    pose proof (follow_head _ _ _ _ _ _ Hf2) as ->.
    apply follow_cons in Hf1 as (r1 & Hr1 & Hf1). apply follow_cons in Hf2 as (r2 & Hr2 & Hf2).
    pose proof Hr1 as (nd1 & Hnd1 & _)%next_Some. pose proof Hr2 as (nd2 & Hnd2 & _)%next_Some.
    cbn [std_lexicographical_compare].
    rewrite (iter_deref_node _ _ _ Hnd1), (iter_deref_node _ _ _ Hnd2).
    cbn [obind map lex_lt]. rewrite (keyof_lookup _ _ _ Hnd1), (keyof_lookup _ _ _ Hnd2).
    destruct (T_lt (value nd1) (value nd2)); [done|].
    destruct (T_lt (value nd2) (value nd1)); [done|].
    rewrite (iter_incr_next _ _ _ Hr1), (iter_incr_next _ _ _ Hr2). cbn [obind].
    apply IH; [done..|]. cbn in Hfuel. lia.
Qed.

(** What the six operators return on two states satisfying the invariant. *)
Lemma operators_inv a b hda La hdb Lb :
  Inv a hda La -> Inv b hdb Lb ->
  let xs := map (key (heap a)) La in
  let ys := map (key (heap b)) Lb in
  op_eq T_eq a b = Ret ((length xs =? length ys) && seq_eq T_eq xs ys) /\
  op_ne T_eq a b = Ret (negb ((length xs =? length ys) && seq_eq T_eq xs ys)) /\
  op_lt T_lt a b = Ret (lex_lt T_lt xs ys) /\
  op_le T_lt a b = Ret (negb (lex_lt T_lt ys xs)) /\
  op_gt T_lt a b = Ret (lex_lt T_lt ys xs) /\
  op_ge T_lt a b = Ret (negb (lex_lt T_lt xs ys)).
Proof.
  intros Ia Ib xs ys.
  destruct (inv_chain0 _ _ _ Ia) as [_ Hfa]. destruct (inv_chain0 _ _ _ Ib) as [_ Hfb].
  assert (op_eq T_eq a b = Ret ((length xs =? length ys) && seq_eq T_eq xs ys)) as Heq.
  { unfold op_eq, size. rewrite (inv_size _ _ _ _ _ Ia), (inv_size _ _ _ _ _ Ib).
    unfold xs, ys. rewrite !length_map.
    destruct (Nat.eqb_spec (length La) (length Lb)) as [Hlen|Hlen]; cbn [negb andb]; [|done].
    rewrite (begin_spec _ _ _ Ia), (begin_spec _ _ _ Ib). cbn [obind].
    apply std_equal_spec; [done..|]. by eapply inv_fuel. }
  assert (forall c d hdc Lc hdd Ld, Inv c hdc Lc -> Inv d hdd Ld ->
            op_lt T_lt c d = Ret (lex_lt T_lt (map (key (heap c)) Lc)
                                              (map (key (heap d)) Ld))) as Hlt.
  { intros c d hdc Lc hdd Ld Ic Id. unfold op_lt.
    rewrite (begin_spec _ _ _ Ic), (begin_spec _ _ _ Id). cbn [obind].
    apply std_lexicographical_compare_spec;
      [apply (inv_chain0 _ _ _ Ic)|apply (inv_chain0 _ _ _ Id)|by eapply inv_fuel]. }
  unfold op_ne, op_le, op_gt, op_ge.
  rewrite Heq, (Hlt a b hda La hdb Lb Ia Ib), (Hlt b a hdb Lb hda La Ib Ia). done.
Qed.

Lemma from_list_inv (g : rng) (ks : list T) :
  exists sl L, from_list comp_ T_default g ks = Ret sl /\ Inv sl 0 L /\
               map (key (heap sl)) L ≡ₚ distinct comp_ ks.
Proof.
  destruct (insert_all_distinct ks (new T_default g) 0 [] [] (new_inv g) ltac:(done))
    as (sl & L & Hall & I & Hperm).
  by exists sl, L.
Qed.

Lemma seq_eq_equiv (xs ys : list T) :
  (forall a b, equiv_ comp_ a b = true -> T_eq a b = true) ->
  Forall2 (fun x y => equiv_ comp_ x y = true) xs ys ->
  seq_eq T_eq xs ys = true.
Proof.
  intros Heq. induction 1 as [|x y xs ys Hxy HF IH]; [done|].
  cbn [seq_eq]. by rewrite (Heq _ _ Hxy), IH.
Qed.

(** C8 (as amended). When keys equivalent under the comparator are equal
    under the element type's ==, two containers built from the same multiset
    of keys in any two orders compare equal; and on any two containers,
    whatever the element type's == is, == is equality of sizes and of the
    iteration sequences element by element, < is the lexicographic order of
    the iteration sequences under the element type's <, and !=, <=, >, >=
    are derived from these two. *)
Theorem relational_operators :
  ((forall a b, equiv_ comp_ a b = true -> T_eq a b = true) ->
   forall g1 g2 ks1 ks2, ks1 ≡ₚ ks2 ->
     exists a b, from_list comp_ T_default g1 ks1 = Ret a /\
                 from_list comp_ T_default g2 ks2 = Ret b /\
                 op_eq T_eq a b = Ret true) /\
  (forall a b xs ys,
     reachable comp_ T_default a -> reachable comp_ T_default b ->
     to_list a = Ret xs -> to_list b = Ret ys ->
     op_eq T_eq a b = Ret ((length xs =? length ys) && seq_eq T_eq xs ys) /\
     op_ne T_eq a b = Ret (negb ((length xs =? length ys) && seq_eq T_eq xs ys)) /\
     op_lt T_lt a b = Ret (lex_lt T_lt xs ys) /\
     op_le T_lt a b = Ret (negb (lex_lt T_lt ys xs)) /\
     op_gt T_lt a b = Ret (lex_lt T_lt ys xs) /\
     op_ge T_lt a b = Ret (negb (lex_lt T_lt xs ys))).
Proof.
  split.
  - intros Heq g1 g2 ks1 ks2 Hp.
    destruct (from_list_inv g1 ks1) as (a & La & Ha & Ia & Hpa).
    destruct (from_list_inv g2 ks2) as (b & Lb & Hb & Ib & Hpb).
    exists a, b. split; [done|]. split; [done|].
    destruct (operators_inv a b 0 La 0 Lb Ia Ib) as [-> _]. f_equal.
    assert (Forall2 (fun x y => equiv_ comp_ x y = true)
              (map (key (heap a)) La) (map (key (heap b)) Lb)) as HF.
    { apply sorted_same_classes.
      - apply sorted_keys, Ia.
      - apply sorted_keys, Ib.
      - intros x Hx. rewrite Hpa in Hx.
        destruct (distinct_same_classes ks1 ks2 x Hp Hx) as (y & Hy & He).
        exists y. by rewrite Hpb.
      - intros y Hy. rewrite Hpb in Hy.
        destruct (distinct_same_classes ks2 ks1 y ltac:(done) Hy) as (x & Hx & He).
        exists x. by rewrite Hpa. }
    rewrite (Forall2_length _ _ _ HF), Nat.eqb_refl. cbn [andb].
    by apply seq_eq_equiv.
  - intros a b xs ys Hra Hrb Hxs Hys.
    destruct (reachable_inv a Hra) as [(hda & La & Ia)|(Hh & _)].
    2:{ unfold to_list, begin in Hxs. by rewrite Hh in Hxs. }
    destruct (reachable_inv b Hrb) as [(hdb & Lb & Ib)|(Hh & _)].
    2:{ unfold to_list, begin in Hys. by rewrite Hh in Hys. }
    rewrite (to_list_spec _ _ _ Ia) in Hxs. rewrite (to_list_spec _ _ _ Ib) in Hys.
    injection Hxs as <-. injection Hys as <-.
    apply (operators_inv a b hda La hdb Lb Ia Ib).
Qed.

End Relational.

(** ** The range of a key *)

(** The iteration sequence splits at a key into the elements before it, the
    at most one element equivalent to it, and the elements after it; the two
    bounds are the positions where the second and the third part begin. *)
Lemma bounds_split sl hd L k :
  Inv sl hd L ->
  exists A E B', L = A ++ E ++ B' /\ length E <= 1 /\
    Forall (fun n => comp_ (key (heap sl) n) k = true) A /\
    Forall (fun n => equiv_ comp_ k (key (heap sl) n) = true) E /\
    Forall (fun n => comp_ k (key (heap sl) n) = true) B' /\
    lower_bound comp_ sl k = Ret (head (E ++ B')) /\
    upper_bound comp_ sl k = Ret (head B') /\
    walk_to (fuel_of (heap sl)) (heap sl) (head (E ++ B')) (head B') = Ret E.
Proof.
  intros I.
  destruct (bound_run sl hd L (fun x => comp_ x k) I (go_lower_mono k))
    as (A & B & HL & HA & HB & Hlo).
  destruct (bound_run sl hd L (fun x => negb (comp_ k x)) I (go_upper_mono k))
    as (A' & B' & HL' & HA' & HB' & Hhi).
  fold (lower_bound_impl comp_ sl k) in Hlo. fold (upper_bound_impl comp_ sl k) in Hhi.
  fold (lower_bound comp_ sl k) in Hlo. fold (upper_bound comp_ sl k) in Hhi.
  assert (exists E, B = E ++ B' /\ A' = A ++ E) as (E & -> & ->).
  { assert (A ++ B = A' ++ B') as Heq by congruence.
    apply app_eq_inv in Heq as [(E & -> & ->)|(E & -> & ->)]; [|by exists E].
    destruct E as [|e E]; [exists []; split; [done|by rewrite !app_nil_r]|]. exfalso.
    apply Forall_app in HA as [_ HA]. apply Forall_cons in HA as [He _].
    apply Forall_cons in HB' as [He' _]. apply negb_false_iff in He'.
    pose proof (comp_trans _ _ _ He He') as Hee. by rewrite comp_irrefl in Hee. }
  apply Forall_app in HA' as [_ HE']. apply Forall_app in HB as [HE HB].
  assert (Forall (fun n => equiv_ comp_ k (key (heap sl) n) = true) E) as HEq.
  { apply Forall_forall. intros n Hn. rewrite Forall_forall in HE, HE'.
    unfold equiv_. rewrite (HE n Hn). specialize (HE' n Hn). cbn in HE'. by rewrite HE'. }
  assert (length E <= 1) as HlenE.
  { destruct E as [|e1 [|e2 E]]; [cbn; lia..|]. exfalso.
    pose proof (inv_sorted _ _ _ _ _ I) as HS. rewrite HL in HS.
    apply StronglySorted_app_1_r, StronglySorted_app_1_l in HS.
    apply StronglySorted_inv in HS as [_ HS]. apply Forall_cons in HS as [H12 _].
    unfold key_lt in H12.
    apply Forall_cons in HE as [H1 _].
    apply Forall_cons in HE' as [_ HE']. apply Forall_cons in HE' as [H2%negb_true_iff _].
    destruct (comp_negtrans _ _ k H12); congruence. }
  exists A, E, B'. split; [done|]. split; [done|]. split; [done|]. split; [done|].
  split. { eapply Forall_impl; [exact HB'|]. cbn. by intros n ?%negb_false_iff. }
  split; [done|]. split; [done|].
  assert (length (heap sl) >= 1) as Hlen.
  { destruct (inv_head_node _ _ _ _ _ I) as (nd & Hnd%lookup_lt_Some & _). lia. }
  destruct E as [|e [|? ?]]; [| |cbn in HlenE; lia].
  - cbn [app]. unfold fuel_of. cbn [walk_to]. unfold iter_eq.
    by rewrite bool_decide_eq_true_2.
  - cbn [app head].
    assert (Some e <> head B') as Hne.
    { intros Hh. pose proof (inv_NoDup _ _ _ I) as [_ Hnd]%NoDup_cons. rewrite HL in Hnd.
      apply NoDup_app in Hnd as (_ & _ & Hnd). apply NoDup_cons in Hnd as [Hnd _].
      apply Hnd. destruct B' as [|b B'']; [done|]. injection Hh as ->. by left. }
    destruct (inv_chain0 _ _ _ I) as [_ Hf]. rewrite HL in Hf.
    apply chain_next in Hf.
    unfold fuel_of. destruct (length (heap sl)) as [|len]; [lia|].
    cbn [walk_to]. unfold iter_eq at 1. rewrite bool_decide_eq_false_2 by done.
    rewrite (iter_incr_next _ _ _ Hf). cbn [obind].
    unfold iter_eq. by rewrite bool_decide_eq_true_2.
Qed.

(** [equal_range k] is exactly what [find k] finds: when [find] returns a
    position, the range starts there and holds that one element; when [find]
    returns end(), the range is empty, both bounds being the same position. *)
Theorem equal_range_is_find sl k it :
  reachable comp_ T_default sl -> find comp_ sl k = Ret it ->
  exists lo hi,
    equal_range comp_ sl k = Ret (lo, hi) /\
    (it = None -> lo = hi) /\
    (forall n, it = Some n -> lo = Some n /\ hi <> Some n) /\
    walk_to (fuel_of (heap sl)) (heap sl) lo hi
    = Ret (match it with Some n => [n] | None => [] end).
Proof.
  intros Hr Hfind.
  assert (head_ sl <> None) as Hh.
  { intros Hn. unfold find, find_impl in Hfind. rewrite Hn in Hfind.
    by rewrite descend_null in Hfind. }
  destruct (reachable_sentinel sl Hr Hh) as (hd & L & I).
  destruct (bounds_split sl hd L k I)
    as (A & E & B' & HL & HlenE & HA & HE & HB' & Hlo & Hhi & Hwalk).
  exists (head (E ++ B')), (head B').
  split; [unfold equal_range; by rewrite Hlo, Hhi|].
  rewrite (find_spec sl hd L k I) in Hfind. injection Hfind as <-. rewrite HL.
  assert (Forall (fun n => equiv_ comp_ k (key (heap sl) n) = false) A) as HA'.
  { eapply Forall_impl; [exact HA|]. cbn. intros n Hn. by apply equiv_false_r'. }
  assert (Forall (fun n => equiv_ comp_ k (key (heap sl) n) = false) B') as HB''.
  { eapply Forall_impl; [exact HB'|]. cbn. intros n Hn. unfold equiv_. by rewrite Hn. }
  destruct E as [|e [|? ?]]; [| |cbn in HlenE; lia].
  - cbn [app] in *. rewrite first_such_none by (by apply Forall_app).
    split; [done|]. split; [done|]. done.
  - apply Forall_cons in HE as [He _]. cbn [app] in *.
    rewrite (first_such_hit _ A B' e HA' He). cbn [head].
    split; [done|]. split; [|done]. intros n [= <-]. split; [done|].
    intros Hhd. pose proof (inv_NoDup _ _ _ I) as [_ Hnd]%NoDup_cons. rewrite HL in Hnd.
    apply NoDup_app in Hnd as (_ & _ & Hnd). apply NoDup_cons in Hnd as [Hnd _].
    apply Hnd. destruct B' as [|b B'']; [done|]. injection Hhd as ->. by left.
Qed.

(** When keys equivalent under the comparator are equal, the iteration
    sequence is a function of the set of inserted keys alone: neither the
    order of insertion nor the levels drawn change it. *)
Theorem iteration_order_independent (g1 g2 : rng) (ks1 ks2 : list T) :
  (forall a b, equiv_ comp_ a b = true -> a = b) -> ks1 ≡ₚ ks2 ->
  exists a b xs,
    from_list comp_ T_default g1 ks1 = Ret a /\
    from_list comp_ T_default g2 ks2 = Ret b /\
    to_list a = Ret xs /\ to_list b = Ret xs /\ size a = size b.
Proof.
  intros Heq Hp.
  destruct (from_list_inv g1 ks1) as (a & La & Ha & Ia & Hpa).
  destruct (from_list_inv g2 ks2) as (b & Lb & Hb & Ib & Hpb).
  assert (map (key (heap a)) La = map (key (heap b)) Lb) as Hxs.
  { assert (Forall2 (fun x y => equiv_ comp_ x y = true)
              (map (key (heap a)) La) (map (key (heap b)) Lb)) as HF.
    { apply sorted_same_classes.
      - apply sorted_keys, Ia.
      - apply sorted_keys, Ib.
      - intros x Hx. rewrite Hpa in Hx.
        destruct (distinct_same_classes ks1 ks2 x Hp Hx) as (y & Hy & He).
        exists y. by rewrite Hpb.
      - intros y Hy. rewrite Hpb in Hy.
        destruct (distinct_same_classes ks2 ks1 y ltac:(done) Hy) as (x & Hx & He).
        exists x. by rewrite Hpa. }
    revert HF. generalize (map (key (heap a)) La) (map (key (heap b)) Lb).
    induction 1 as [|x y xs ys Hxy _ IH]; [done|]. by rewrite (Heq _ _ Hxy), IH. }
  exists a, b, (map (key (heap a)) La). split; [done|]. split; [done|].
  split; [by apply (to_list_spec _ 0)|]. split; [rewrite Hxs; by apply (to_list_spec _ 0)|].
  unfold size. rewrite (inv_size _ _ _ _ _ Ia), (inv_size _ _ _ _ _ Ib).
  by rewrite <- (length_map (key (heap a))), Hxs, length_map.
Qed.

End Incomparability.

End StrictWeakOrder.

End Proofs.

(** * The statements at concrete containers *)

Lemma ltb_trans (a b c : nat) : (a <? b) = true -> (b <? c) = true -> (a <? c) = true.
Proof. rewrite !Nat.ltb_lt. lia. Qed.

Lemma ltb_negtrans (a b c : nat) : (a <? b) = true -> (a <? c) = true \/ (c <? b) = true.
Proof. rewrite !Nat.ltb_lt. lia. Qed.

Lemma ltb_equiv_eqb (a b : nat) : equiv_ Nat.ltb a b = true -> (a =? b) = true.
Proof.
  unfold equiv_. rewrite andb_true_iff, !negb_true_iff, !Nat.ltb_ge, Nat.eqb_eq. lia.
Qed.

Lemma demo_sl_reachable : reachable Nat.ltb 0 demo_sl.
Proof.
  apply (insert_all_reachable Nat.ltb 0 demo_keys (new 0 demo_rng)); [apply reach_new|].
  vm_compute. reflexivity.
Qed.

Lemma other_sl_reachable : reachable Nat.ltb 0 other_sl.
Proof.
  apply (insert_all_reachable Nat.ltb 0 [6; 2; 1] (new 0 steady_rng)); [apply reach_new|].
  vm_compute. reflexivity.
Qed.

Lemma demo_sl_positions : positions demo_sl = Ret [2; 1; 3; 4].
Proof. vm_compute. reflexivity. Qed.

Lemma insert_sequence_sorted_distinct_witness :
  (exists sl xs,
     from_list Nat.ltb 0 demo_rng demo_keys = Ret sl /\
     to_list sl = Ret xs /\
     StronglySorted (fun a b => (a <? b) = true) xs /\
     xs ≡ₚ distinct Nat.ltb demo_keys /\
     size sl = length (distinct Nat.ltb demo_keys)) /\
  (exists sl xs,
     run_insertions Nat.ltb (new 0 demo_rng) demo_calls = Ret sl /\
     to_list sl = Ret xs /\
     StronglySorted (fun a b => (a <? b) = true) xs /\
     xs ≡ₚ distinct Nat.ltb (map inserted_key demo_calls) /\
     size sl = length (distinct Nat.ltb (map inserted_key demo_calls))).
Proof.
  destruct (insert_sequence_sorted_distinct Nat.ltb 0 Nat.ltb_irrefl ltb_trans demo_rng)
    as [H1 H2].
  split; [apply H1|apply H2].
Defined.

Lemma level_chains_sorted_witness :
  exists L,
    is_chain demo_sl 0 L /\ NoDup L /\ StronglySorted (key_lt Nat.ltb 0 (heap demo_sl)) L /\
    (forall n, live demo_sl n <-> n ∈ L) /\
    (forall a b, a ∈ L -> b ∈ L ->
       equiv_ Nat.ltb (keyof 0 (heap demo_sl) a) (keyof 0 (heap demo_sl) b) = true -> a = b) /\
    forall i, i <= max_level_ demo_sl ->
      exists Li, is_chain demo_sl i Li /\ StronglySorted (key_lt Nat.ltb 0 (heap demo_sl)) Li /\
                 Li `sublist_of` L.
Proof.
  apply (level_chains_sorted Nat.ltb 0 Nat.ltb_irrefl ltb_trans demo_sl 0).
  - apply (members_from_list Nat.ltb 0 demo_rng demo_keys). vm_compute. reflexivity.
  - reflexivity.
Defined.

(** C2 (counterexample). Assigning through the reference that a non-const
    iterator hands out is ordinary use of the container, and it overwrites a
    key in place: after [*sl.begin() = 9] on {1, 3, 4, 5} the container still
    owns its sentinel, its index-0 chain visits the same four nodes, and
    their keys read 9, 3, 4, 5, so no chain from the sentinel is strictly
    increasing. *)
Lemma write_through_iterator_breaks_order :
  reachable_by_members Nat.ltb 0 demo_sl /\
  to_list demo_sl = Ret [1; 3; 4; 5] /\
  (do b <- begin demo_sl; assign_through demo_sl b 9) = Ret demo_written /\
  head_ demo_written = Some 0 /\
  max_level_ demo_written = max_level_ demo_sl /\
  is_chain demo_written 0 [2; 1; 3; 4] /\
  to_list demo_written = Ret [9; 3; 4; 5] /\
  ~ exists L, is_chain demo_written 0 L /\
              StronglySorted (key_lt Nat.ltb 0 (heap demo_written)) L.
Proof.
  assert (is_chain demo_written 0 [2; 1; 3; 4]) as Hc.
  { exists 0. split; vm_compute; reflexivity. }
  split; [apply (members_from_list Nat.ltb 0 demo_rng demo_keys); vm_compute; reflexivity|].
  do 4 (split; [vm_compute; reflexivity|]). split; [exact Hc|].
  split; [vm_compute; reflexivity|].
  intros (L & (hd & Hh & Hf) & HS). destruct Hc as (hd' & Hh' & Hf').
  rewrite Hh in Hh'. injection Hh' as <-.
  pose proof (follow_unique _ _ _ _ _ Hf Hf') as [= ->].
  apply StronglySorted_inv in HS as [_ HS]. apply Forall_inv in HS.
  vm_compute in HS. discriminate HS.
Qed.

Lemma insert_existing_unchanged_witness :
  insert Nat.ltb demo_sl 4 = Ret ((Some 3, false), demo_sl).
Proof.
  apply (insert_existing_unchanged Nat.ltb 0 Nat.ltb_irrefl ltb_trans ltb_negtrans
           demo_sl [2; 1; 3; 4] 3 4 demo_sl_reachable).
  - vm_compute. reflexivity.
  - right. right. left.
  - reflexivity.
Defined.

Lemma bounds_spec_witness :
  lower_bound Nat.ltb demo_sl 2
    = Ret (first_such (fun n => negb (keyof 0 (heap demo_sl) n <? 2)) [2; 1; 3; 4]) /\
  upper_bound Nat.ltb demo_sl 2
    = Ret (first_such (fun n => 2 <? keyof 0 (heap demo_sl) n) [2; 1; 3; 4]) /\
  exists lo hi r,
    lower_bound Nat.ltb demo_sl 2 = Ret lo /\ upper_bound Nat.ltb demo_sl 2 = Ret hi /\
    equal_range Nat.ltb demo_sl 2 = Ret (lo, hi) /\
    walk_to (fuel_of (heap demo_sl)) (heap demo_sl) lo hi = Ret r /\ length r <= 1.
Proof.
  apply (bounds_spec Nat.ltb 0 Nat.ltb_irrefl ltb_trans ltb_negtrans
           demo_sl [2; 1; 3; 4] 2 demo_sl_reachable).
  vm_compute. reflexivity.
Defined.

Lemma increment_at_end_witness :
  (forall h : list (@SkipListNode nat),
     iter_incr h (end_ demo_sl) = Ret (end_ demo_sl) /\
     iter_incr h default_iterator = Ret (end_ demo_sl)) /\
  keyof 0 (heap demo_sl) 4 = 5 /\
  iter_incr (heap demo_sl) (Some 4) = Ret (end_ demo_sl).
Proof.
  destruct (increment_at_end Nat.ltb 0 Nat.ltb_irrefl ltb_trans demo_sl 4) as [H1 H2].
  split; [exact H1|]. split; [reflexivity|].
  apply H2.
  - apply demo_sl_reachable.
  - apply (live_positions Nat.ltb 0 Nat.ltb_irrefl ltb_trans demo_sl [2; 1; 3; 4] 4
             demo_sl_reachable demo_sl_positions).
    right. right. right. left.
  - intros m Hm.
    apply (live_positions Nat.ltb 0 Nat.ltb_irrefl ltb_trans demo_sl [2; 1; 3; 4] m
             demo_sl_reachable demo_sl_positions) in Hm.
    apply list_elem_of_In in Hm. cbn [In] in Hm.
    destruct Hm as [<-|[<-|[<-|[<-|[]]]]]; reflexivity.
Defined.

Lemma relational_operators_witness :
  (exists a b, from_list Nat.ltb 0 demo_rng [3; 1; 4; 1; 5] = Ret a /\
               from_list Nat.ltb 0 steady_rng [5; 1; 4; 1; 3] = Ret b /\
               op_eq Nat.eqb a b = Ret true) /\
  (op_eq Nat.eqb demo_sl other_sl
     = Ret ((length [1; 3; 4; 5] =? length [1; 2; 6]) && seq_eq Nat.eqb [1; 3; 4; 5] [1; 2; 6]) /\
   op_ne Nat.eqb demo_sl other_sl
     = Ret (negb ((length [1; 3; 4; 5] =? length [1; 2; 6])
                  && seq_eq Nat.eqb [1; 3; 4; 5] [1; 2; 6])) /\
   op_lt Nat.ltb demo_sl other_sl = Ret (lex_lt Nat.ltb [1; 3; 4; 5] [1; 2; 6]) /\
   op_le Nat.ltb demo_sl other_sl = Ret (negb (lex_lt Nat.ltb [1; 2; 6] [1; 3; 4; 5])) /\
   op_gt Nat.ltb demo_sl other_sl = Ret (lex_lt Nat.ltb [1; 2; 6] [1; 3; 4; 5]) /\
   op_ge Nat.ltb demo_sl other_sl = Ret (negb (lex_lt Nat.ltb [1; 3; 4; 5] [1; 2; 6]))).
Proof.
  destruct (relational_operators Nat.ltb 0 Nat.ltb_irrefl ltb_trans ltb_negtrans
              Nat.eqb Nat.ltb) as [H1 H2].
  split.
  - apply (H1 ltb_equiv_eqb). apply (Permutation_rev [3; 1; 4; 1; 5]).
  - apply H2; [apply demo_sl_reachable|apply other_sl_reachable| |]; vm_compute; reflexivity.
Defined.

Lemma find_position_witness :
  find Nat.ltb demo_sl 4
  = Ret (first_such (fun n => equiv_ Nat.ltb 4 (keyof 0 (heap demo_sl) n)) [2; 1; 3; 4]).
Proof.
  apply (find_position Nat.ltb 0 Nat.ltb_irrefl ltb_trans demo_sl [2; 1; 3; 4] 4
           demo_sl_reachable).
  vm_compute. reflexivity.
Defined.

Lemma operations_total_witness :
  (exists it, find Nat.ltb demo_sl 7 = Ret it /\
     count Nat.ltb demo_sl 7 = Ret (if it is Some _ then 1 else 0)) /\
  (exists it, lower_bound Nat.ltb demo_sl 7 = Ret it) /\
  (exists it, upper_bound Nat.ltb demo_sl 7 = Ret it) /\
  (exists lo hi, equal_range Nat.ltb demo_sl 7 = Ret (lo, hi)) /\
  (exists r sl', insert Nat.ltb demo_sl 7 = Ret (r, sl')) /\
  (exists sl', clear demo_sl = Ret sl' /\ size sl' = 0 /\ empty sl' = true /\
     begin sl' = Ret (end_ sl')).
Proof.
  apply (operations_total Nat.ltb 0 Nat.ltb_irrefl ltb_trans demo_sl 7 demo_sl_reachable).
  discriminate.
Defined.

Lemma node_slots_invariant_witness :
  (exists nd, heap demo_sl !! 0 = Some nd /\ MAX_LEVEL <= length (forward nd)) /\
  (forall n nd, heap demo_sl !! n = Some nd -> n <> 0 ->
     length (forward nd) = level nd + 1 /\ level nd < MAX_LEVEL) /\
  (forall v r sl', insert Nat.ltb demo_sl v = Ret (r, sl') ->
     forall n nd, heap demo_sl !! n = Some nd ->
       exists nd', heap sl' !! n = Some nd' /\ value nd' = value nd /\
                   level nd' = level nd /\ length (forward nd') = length (forward nd)).
Proof.
  apply (node_slots_invariant Nat.ltb 0 Nat.ltb_irrefl ltb_trans demo_sl 0 demo_sl_reachable).
  reflexivity.
Defined.

Lemma copy_construct_spec_witness :
  exists cp, copy_construct Nat.ltb 0 steady_rng demo_sl = Ret cp /\
             to_list cp = Ret [1; 3; 4; 5] /\ size cp = size demo_sl.
Proof.
  apply (copy_construct_spec Nat.ltb 0 Nat.ltb_irrefl ltb_trans steady_rng demo_sl
           [1; 3; 4; 5] demo_sl_reachable).
  vm_compute. reflexivity.
Defined.

Lemma ts_less_strict_weak :
  (forall a, ts_less a a = false) /\
  (forall a b c, ts_less a b = true -> ts_less b c = true -> ts_less a c = true) /\
  (forall a b c, ts_less a b = true -> ts_less a c = true \/ ts_less c b = true).
Proof.
  unfold ts_less. split; [|split].
  - intros a. apply Nat.ltb_irrefl.
  - intros a b c. apply ltb_trans.
  - intros a b c. apply ltb_negtrans.
Qed.

(** C8 (counterexample). With the tests' [TestStruct], whose [operator<]
    ignores the name (a strict weak ordering, [ts_less_strict_weak]), the same
    two keys inserted in the two possible orders give containers that
    [operator==] tells apart. *)
Lemma equality_depends_on_insertion_order :
  [ts_one; ts_uno] ≡ₚ [ts_uno; ts_one] /\
  (do a <- from_list ts_less ts_default demo_rng [ts_one; ts_uno];
   do b <- from_list ts_less ts_default demo_rng [ts_uno; ts_one];
   op_eq ts_eq a b) = Ret false.
Proof. split; [apply perm_swap|]. vm_compute. reflexivity. Qed.

Lemma ltb_equiv_eq (a b : nat) : equiv_ Nat.ltb a b = true -> a = b.
Proof. intros H%ltb_equiv_eqb. by apply Nat.eqb_eq. Qed.

Lemma demo_sl_insert_2 : insert Nat.ltb demo_sl 2 = Ret ((Some 5, true), demo_sl_2).
Proof. vm_compute. reflexivity. Qed.

Lemma demo_sl_sentinel : head_ demo_sl <> None.
Proof. discriminate. Qed.

Lemma insert_new_key_witness :
  exists nw sl' L1 L2,
    insert Nat.ltb demo_sl 2 = Ret ((Some nw, true), sl') /\
    [2; 1; 3; 4] = L1 ++ L2 /\ (nw ∉ [2; 1; 3; 4]) /\
    positions sl' = Ret (L1 ++ nw :: L2) /\
    Forall (fun n => (keyof 0 (heap demo_sl) n <? 2) = true) L1 /\
    Forall (fun n => (2 <? keyof 0 (heap demo_sl) n) = true) L2 /\
    iter_deref (heap sl') (Some nw) = Ret 2 /\
    (forall n, n ∈ [2; 1; 3; 4] ->
       iter_deref (heap sl') (Some n) = iter_deref (heap demo_sl) (Some n)) /\
    size sl' = size demo_sl + 1.
Proof.
  apply (insert_new_key Nat.ltb 0 Nat.ltb_irrefl ltb_trans demo_sl [2; 1; 3; 4] 2
           demo_sl_reachable demo_sl_positions).
  intros n Hn. rewrite !elem_of_cons, elem_of_nil in Hn.
  destruct Hn as [->|[->|[->|[->|[]]]]]; reflexivity.
Defined.

Lemma insert_then_find_witness :
  find Nat.ltb demo_sl_2 2 = Ret (Some 5) /\
  count Nat.ltb demo_sl_2 2 = Ret 1 /\
  exists x, iter_deref (heap demo_sl_2) (Some 5) = Ret x /\ equiv_ Nat.ltb 2 x = true /\
            (true = true -> x = 2).
Proof.
  exact (insert_then_find Nat.ltb 0 Nat.ltb_irrefl ltb_trans demo_sl 2 (Some 5) true
           demo_sl_2 demo_sl_reachable demo_sl_insert_2).
Defined.

Lemma insert_keeps_other_keys_witness :
  find Nat.ltb demo_sl_2 4 = find Nat.ltb demo_sl 4 /\
  count Nat.ltb demo_sl_2 4 = count Nat.ltb demo_sl 4.
Proof.
  apply (insert_keeps_other_keys Nat.ltb 0 Nat.ltb_irrefl ltb_trans demo_sl 2 4
           (Some 5, true) demo_sl_2 demo_sl_reachable demo_sl_insert_2).
  reflexivity.
Defined.

Lemma size_counts_positions_witness :
  exists L xs,
    positions demo_sl = Ret L /\ to_list demo_sl = Ret xs /\
    size demo_sl = length L /\
    Forall2 (fun n x => iter_deref (heap demo_sl) (Some n) = Ret x) L xs /\
    (empty demo_sl = true <-> begin demo_sl = Ret (end_ demo_sl)).
Proof.
  exact (size_counts_positions Nat.ltb 0 Nat.ltb_irrefl ltb_trans demo_sl
           demo_sl_reachable demo_sl_sentinel).
Defined.

Lemma empty_container_queries_witness :
  let sl := new 0 demo_rng in
  find Nat.ltb sl 7 = Ret (end_ sl) /\ count Nat.ltb sl 7 = Ret 0 /\
  lower_bound Nat.ltb sl 7 = Ret (end_ sl) /\ upper_bound Nat.ltb sl 7 = Ret (end_ sl) /\
  equal_range Nat.ltb sl 7 = Ret (end_ sl, end_ sl) /\
  begin sl = Ret (end_ sl) /\ to_list sl = Ret [].
Proof.
  apply (empty_container_queries Nat.ltb 0 Nat.ltb_irrefl ltb_trans (new 0 demo_rng) 7).
  - apply reach_new.
  - discriminate.
  - reflexivity.
Defined.

Lemma clear_then_refill_witness :
  exists sl0 sl' xs,
    clear demo_sl = Ret sl0 /\ insert_all Nat.ltb sl0 [9; 8; 9] = Ret sl' /\
    to_list sl' = Ret xs /\
    StronglySorted (fun a b => (a <? b) = true) xs /\
    xs ≡ₚ distinct Nat.ltb [9; 8; 9] /\
    size sl' = length (distinct Nat.ltb [9; 8; 9]).
Proof.
  exact (clear_then_refill Nat.ltb 0 Nat.ltb_irrefl ltb_trans demo_sl [9; 8; 9]
           demo_sl_reachable demo_sl_sentinel).
Defined.

Lemma iterator_survives_clear_witness :
  positions demo_cleared = Ret [] /\
  iter_deref (heap demo_cleared) (Some 1) = iter_deref (heap demo_sl) (Some 1) /\
  walk (fuel_of (heap demo_cleared)) (heap demo_cleared) (Some 1) = Ret [1; 3; 4] /\
  collect (fuel_of (heap demo_cleared)) (heap demo_cleared) (Some 1)
  = collect (fuel_of (heap demo_sl)) (heap demo_sl) (Some 1).
Proof.
  apply (iterator_survives_clear Nat.ltb 0 Nat.ltb_irrefl ltb_trans demo_sl [2] 1 [3; 4]
           demo_cleared demo_sl_reachable demo_sl_positions).
  vm_compute. reflexivity.
Defined.

Lemma insert_draws_witness :
  (true = false -> gen_ demo_sl_2 = gen_ demo_sl) /\
  (true = true -> exists nw lv, Some 5 = Some nw /\ lvl (heap demo_sl_2) nw = lv /\
                    forall n, gen_ demo_sl_2 n = gen_ demo_sl (S lv + n)).
Proof.
  exact (insert_draws Nat.ltb 0 Nat.ltb_irrefl ltb_trans demo_sl 2 (Some 5) true demo_sl_2
           demo_sl_reachable demo_sl_insert_2).
Defined.

Lemma count_membership_witness :
  count Nat.ltb demo_sl 4
  = Ret (if existsb (fun n => equiv_ Nat.ltb 4 (keyof 0 (heap demo_sl) n)) [2; 1; 3; 4]
         then 1 else 0).
Proof.
  exact (count_membership Nat.ltb 0 Nat.ltb_irrefl ltb_trans demo_sl [2; 1; 3; 4] 4
           demo_sl_reachable demo_sl_positions).
Defined.

Lemma max_level_is_tallest_witness :
  exists L, positions demo_sl = Ret L /\
            max_level_ demo_sl = max_list (map (lvl (heap demo_sl)) L).
Proof.
  exact (max_level_is_tallest Nat.ltb 0 Nat.ltb_irrefl ltb_trans demo_sl
           demo_sl_reachable demo_sl_sentinel).
Defined.

Lemma assignment_spec_witness :
  let moved := snd (move_construct other_sl) in
  (forall x, copy_assign Nat.ltb 0 steady_rng x itself = Ret x /\
             move_assign x itself = Ret (x, x)) /\
  (forall target,
     exists cp, copy_assign Nat.ltb 0 steady_rng target (another demo_sl) = Ret cp /\
                to_list cp = Ret [1; 3; 4; 5] /\ size cp = size demo_sl) /\
  (exists dst src, move_assign other_sl (another demo_sl) = Ret (dst, src) /\
                   to_list dst = Ret [1; 3; 4; 5] /\ size dst = size demo_sl /\
                   size src = 0 /\ empty src = true) /\
  move_assign moved (another demo_sl) = Fault.
Proof.
  apply (assignment_spec Nat.ltb 0 Nat.ltb_irrefl ltb_trans steady_rng
           other_sl (snd (move_construct other_sl)) demo_sl [1; 3; 4; 5]).
  - apply other_sl_reachable.
  - vm_compute. discriminate.
  - reflexivity.
  - apply demo_sl_reachable.
  - vm_compute. reflexivity.
Defined.

Lemma equal_range_is_find_witness :
  exists lo hi,
    equal_range Nat.ltb demo_sl 4 = Ret (lo, hi) /\
    (Some 3 = None -> lo = hi) /\
    (forall n, Some 3 = Some n -> lo = Some n /\ hi <> Some n) /\
    walk_to (fuel_of (heap demo_sl)) (heap demo_sl) lo hi = Ret [3].
Proof.
  apply (equal_range_is_find Nat.ltb 0 Nat.ltb_irrefl ltb_trans ltb_negtrans demo_sl 4
           (Some 3) demo_sl_reachable).
  vm_compute. reflexivity.
Defined.

Lemma iteration_order_independent_witness :
  exists a b xs,
    from_list Nat.ltb 0 demo_rng [3; 1; 4; 1; 5] = Ret a /\
    from_list Nat.ltb 0 steady_rng [5; 1; 4; 1; 3] = Ret b /\
    to_list a = Ret xs /\ to_list b = Ret xs /\ size a = size b.
Proof.
  apply (iteration_order_independent Nat.ltb 0 Nat.ltb_irrefl ltb_trans ltb_negtrans
           demo_rng steady_rng [3; 1; 4; 1; 5] [5; 1; 4; 1; 3] ltb_equiv_eq).
  apply (Permutation_rev [3; 1; 4; 1; 5]).
Defined.
